(** * Root parameters resolver: [packages/next/src/server/request/root-params.ts]

    A shallow embedding of the module and the properties of its
    identity cache, its partition decision and its per-property traps.

    The module works on three kinds of JavaScript objects: the plain
    [Params] object of the render, the promises it builds around it, and
    the module-level [WeakMap] from the former to the latter.  Objects have
    an identity, so promises live in a heap indexed by locations and a
    [Params] object carries the location that identifies it. *)

From stdpp Require Import gmap strings list.

Abbreviation loc := nat.

(** Handles owned by the render engine: the [AbortSignal] of a dynamicIO
    prerender and the dynamic tracking state of a PPR prerender. *)
Abbreviation Signal := nat.
Abbreviation Tracking := nat.

(** ** Data model *)

(** [Params = Record<string, string | string[] | undefined>]. *)
Inductive Value :=
| VString (s : string)
| VArray (l : list string)
| VUndefined.

(** The [Params] object: its identity, and its own enumerable properties
    in the order [Object.keys] and [for ... in] enumerate them. *)
Record Params := {
  params_id : loc;
  params_entries : list (string * Value)
}.

(** [PrerenderStore], discriminated by its [type]: ['prerender'] (dynamicIO,
    carries [renderSignal]), ['prerender-ppr'] (carries [dynamicTracking])
    and ['prerender-legacy']. *)
Inductive PrerenderStore :=
| PrerenderStoreModern (renderSignal : Signal)
| PrerenderStorePPR (dynamicTracking : Tracking)
| PrerenderStoreLegacy.

(** [WorkUnitStore]: a prerender store, or one of the stores the resolver
    has no branch for. *)
Inductive WorkUnitStore :=
| UnitPrerender (prerenderStore : PrerenderStore)
| UnitRequest
| UnitCache
| UnitUnstableCache.

(** The fields of [WorkStore] the module reads.  [fallbackRouteParams] is
    only ever asked [.has(key)], so it is the set of its keys; [None] is
    [null]. *)
Record WorkStore := {
  route : string;
  rootParams : Params;
  fallbackRouteParams : option (gset string)
}.

(** What the code can throw. *)
Inductive Exn :=
| InvariantError (message : string)
| PostponeError (route expression : string)
| DynamicServerError (route expression : string)
| HangingPromiseRejectionError (expression : string)
| TypeError.

(** Calls into [../app-render/dynamic-rendering], as the render engine
    observes them. *)
Inductive Event :=
| EvPostponeWithTracking (route expression : string) (dynamicTracking : Tracking)
| EvThrowToInterruptStaticGeneration (expression route : string)
| EvTrackDynamicDataInDynamicRender (route : string) (unit : option WorkUnitStore).

(** A property of a promise object.  The only accessor the module installs
    is the [get]/[set] pair of [makeErroringRootParams]; the slot keeps what
    the two closures capture: [promise], [prop], [workStore] and
    [prerenderStore]. *)
Inductive Slot :=
| DataSlot (value : Value) (writable enumerable configurable : bool)
| AccessorSlot (promise : loc) (prop : string) (workStore : WorkStore)
    (prerenderStore : PrerenderStore) (enumerable configurable : bool).

Definition slot_configurable (s : Slot) : bool :=
  match s with
  | DataSlot _ _ _ c => c
  | AccessorSlot _ _ _ _ _ c => c
  end.

(** How a promise settles.  [Hanging] is the promise of
    [makeHangingPromise]: pending until its signal aborts. *)
Inductive Settlement :=
| Fulfilled (value : Params)
| Rejected (reason : Exn)
| Hanging (signal : Signal) (expression : string).

(** The prototype of a promise object: [Promise.prototype], until an
    assignment to [__proto__] hands an array to the inherited setter and the
    array takes its place. *)
Inductive Prototype :=
| PromisePrototype
| ArrayValue (l : list string).

Record PromiseObj := {
  settlement : Settlement;
  own : gmap string Slot;
  proto : Prototype
}.

(** The state the module runs in: the promises, the allocation counter,
    the [CachedParams] weak map (keyed by the identity of the [Params]
    object), the keys of the [CachedParams.set] calls made so far (ghost,
    most recent first) and the calls made into the render engine (most
    recent first). *)
Record State := {
  heap : gmap loc PromiseObj;
  next_loc : loc;
  CachedParams : gmap loc loc;
  cache_sets : list loc;
  events : list Event
}.

Definition empty_state : State :=
  {| heap := ∅; next_loc := 0; CachedParams := ∅; cache_sets := []; events := [] |}.

(** ** A state and exception monad *)

Inductive Completion (A : Type) :=
| Normal (a : A)
| Throw (e : Exn).
Arguments Normal {A} a.
Arguments Throw {A} e.

Definition M (A : Type) : Type := State → Completion A * State.

Definition ret {A} (a : A) : M A := fun σ => (Normal a, σ).

Definition throw {A} (e : Exn) : M A := fun σ => (Throw e, σ).

Definition bind {A B} (m : M A) (k : A → M B) : M B :=
  fun σ =>
    match m σ with
    | (Normal a, σ') => k a σ'
    | (Throw e, σ') => (Throw e, σ')
    end.

Declare Scope js_scope.
Delimit Scope js_scope with js.
Notation "'let*' x := m 'in' k" := (bind m (fun x => k))
  (at level 10, x name, m at level 100, k at level 200) : js_scope.
Notation "m ;; k" := (bind m (fun _ => k))
  (at level 100, k at level 200, right associativity) : js_scope.
Open Scope js_scope.

(** [Array.prototype.forEach]. *)
Fixpoint forEach {A} (l : list A) (f : A → M unit) : M unit :=
  match l with
  | [] => ret tt
  | x :: l => f x ;; forEach l f
  end.

(** State updates. *)
Definition set_heap (h : gmap loc PromiseObj) (σ : State) : State :=
  {| heap := h; next_loc := next_loc σ; CachedParams := CachedParams σ;
     cache_sets := cache_sets σ; events := events σ |}.

Definition add_event (e : Event) (σ : State) : State :=
  {| heap := heap σ; next_loc := next_loc σ; CachedParams := CachedParams σ;
     cache_sets := cache_sets σ; events := e :: events σ |}.

Definition allocated (o : PromiseObj) (σ : State) : State :=
  {| heap := <[next_loc σ := o]> (heap σ); next_loc := S (next_loc σ);
     CachedParams := CachedParams σ; cache_sets := cache_sets σ;
     events := events σ |}.

Definition cached (key : loc) (promise : loc) (σ : State) : State :=
  {| heap := heap σ; next_loc := next_loc σ;
     CachedParams := <[key := promise]> (CachedParams σ);
     cache_sets := key :: cache_sets σ; events := events σ |}.

Definition log_event (e : Event) : M unit :=
  fun σ => (Normal tt, add_event e σ).

(** A new object gets the next free location. *)
Definition alloc (o : PromiseObj) : M loc :=
  fun σ => (Normal (next_loc σ), allocated o σ).

Definition put_own (w : loc) (k : string) (s : Slot) : M unit :=
  fun σ =>
    match heap σ !! w with
    | Some o =>
        (Normal tt,
         set_heap (<[w := {| settlement := settlement o; own := <[k := s]> (own o);
                             proto := proto o |}]> (heap σ)) σ)
    | None => (Throw TypeError, σ)
    end.

Definition set_proto (w : loc) (p : Prototype) : M unit :=
  fun σ =>
    match heap σ !! w with
    | Some o =>
        (Normal tt,
         set_heap (<[w := {| settlement := settlement o; own := own o; proto := p |}]>
                     (heap σ)) σ)
    | None => (Throw TypeError, σ)
    end.

Definition get_proto (w : loc) : M Prototype :=
  fun σ =>
    match heap σ !! w with
    | Some o => (Normal (proto o), σ)
    | None => (Throw TypeError, σ)
    end.

Definition get_own (w : loc) (k : string) : M (option Slot) :=
  fun σ =>
    match heap σ !! w with
    | Some o => (Normal (own o !! k), σ)
    | None => (Throw TypeError, σ)
    end.

(** The own property [k] of the object at [w], if both exist. *)
Definition own_slot (σ : State) (w : loc) (k : string) : option Slot :=
  heap σ !! w ≫= fun o => own o !! k.

(** ** The objects of the host *)

(** [Object.keys(params)], and the keys of [for (const key in params)]: a
    [Params] object inherits no enumerable property. *)
Definition Object_keys (p : Params) : list string := (params_entries p).*1.

(** [params[prop]]. *)
Fixpoint entries_get (l : list (string * Value)) (k : string) : Value :=
  match l with
  | [] => VUndefined
  | (k', v) :: l => if decide (k = k') then v else entries_get l k
  end.

Definition params_get (p : Params) (k : string) : Value :=
  entries_get (params_entries p) k.

(** [Promise.resolve(params)]: [params] is not a thenable, so this is a new
    promise fulfilled with the object itself. *)
Definition Promise_resolve (v : Params) : M loc :=
  alloc {| settlement := Fulfilled v; own := ∅; proto := PromisePrototype |}.

(** [CachedParams.get(key)] and [CachedParams.set(key, promise)]. *)
Definition CachedParams_get (key : Params) : M (option loc) :=
  fun σ => (Normal (CachedParams σ !! params_id key), σ).

Definition CachedParams_set (key : Params) (promise : loc) : M unit :=
  fun σ => (Normal tt, cached (params_id key) promise σ).

(** ** The render engine's primitives

    [postponeWithTracking], [throwToInterruptStaticGeneration],
    [trackDynamicDataInDynamicRender] and [makeHangingPromise] are imported
    from modules this development does not embed. *)

(** Modelled from the spec: [postponeWithTracking] of
    [../app-render/dynamic-rendering] is the suspend primitive; it never
    returns to its caller. *)
Definition postponeWithTracking (route expression : string)
    (dynamicTracking : Tracking) : M unit :=
  log_event (EvPostponeWithTracking route expression dynamicTracking) ;;
  throw (PostponeError route expression).

(** Modelled from the spec: [throwToInterruptStaticGeneration] of
    [../app-render/dynamic-rendering] is the abort primitive; it never
    returns to its caller. *)
Definition throwToInterruptStaticGeneration (expression : string)
    (store : WorkStore) (prerenderStore : PrerenderStore) : M unit :=
  log_event (EvThrowToInterruptStaticGeneration expression (route store)) ;;
  throw (DynamicServerError (route store) expression).

(** Modelled from the spec: [trackDynamicDataInDynamicRender] of
    [../app-render/dynamic-rendering] records a dynamic access and returns
    normally. *)
Definition trackDynamicDataInDynamicRender (store : WorkStore)
    (workUnitStore : option WorkUnitStore) : M unit :=
  log_event (EvTrackDynamicDataInDynamicRender (route store) workUnitStore).

(** Modelled from the spec: [makeHangingPromise] of
    [../dynamic-rendering-utils] returns a future whose only transition is
    to reject when the signal fires. *)
Definition makeHangingPromise (signal : Signal) (expression : string) : M loc :=
  alloc {| settlement := Hanging signal expression; own := ∅;
           proto := PromisePrototype |}.

(** ** Property reads and writes on a promise object *)

(** What [promise[k]] evaluates to: the value of an own property, or,
    when the promise has no own property [k], whatever the chain that
    starts at its prototype [from] holds under that name (for [__proto__],
    through the getter of [Object.prototype], the prototype itself). *)
Inductive Lookup :=
| Own (value : Value)
| Inherited (from : Prototype).

Module RootParams.

Section Host.

(** [wellKnownProperties] and [describeStringPropertyAccess] are imported
    from [./utils]; the module uses the former only through [.has]. *)
Variable wellKnownProperties : gset string.
Variable describeStringPropertyAccess : string → string → string.

(** [Object.defineProperty(promise, prop, { value: newValue, writable:
    true, enumerable: true })].  A new property gets [configurable:
    false]; a configurable one is redefined and stays configurable; a
    non-configurable one only accepts the call when it is already a
    writable, enumerable data property. *)
Definition defineProperty_value (w : loc) (prop : string) (newValue : Value) : M unit :=
  let* s := get_own w prop in
  match s with
  | None => put_own w prop (DataSlot newValue true true false)
  | Some s =>
      if slot_configurable s then put_own w prop (DataSlot newValue true true true)
      else
        match s with
        | DataSlot _ true true false => put_own w prop (DataSlot newValue true true false)
        | _ => throw TypeError
        end
  end.

(** [Object.defineProperty(promise, prop, { get, set, enumerable: true,
    configurable: true })] with the two closures of
    [makeErroringRootParams]. *)
Definition defineProperty_accessor (w : loc) (prop : string)
    (workStore : WorkStore) (prerenderStore : PrerenderStore) : M unit :=
  let* s := get_own w prop in
  match s with
  | None => put_own w prop (AccessorSlot w prop workStore prerenderStore true true)
  | Some s =>
      if slot_configurable s
      then put_own w prop (AccessorSlot w prop workStore prerenderStore true true)
      else throw TypeError
  end.

(** The [get()] closure of [makeErroringRootParams]. *)
Definition accessor_get (prop : string) (workStore : WorkStore)
    (prerenderStore : PrerenderStore) : M Value :=
  let expression := describeStringPropertyAccess "rootParams" prop in
  match prerenderStore with
  | PrerenderStorePPR dynamicTracking =>
      postponeWithTracking (route workStore) expression dynamicTracking
  | _ => throwToInterruptStaticGeneration expression workStore prerenderStore
  end ;;
  ret VUndefined.

(** The [set(newValue)] closure of [makeErroringRootParams]. *)
Definition accessor_set (promise : loc) (prop : string) (newValue : Value) : M unit :=
  defineProperty_value promise prop newValue.

(** [promise[k]]. *)
Definition read (w : loc) (k : string) : M Lookup :=
  let* s := get_own w k in
  match s with
  | Some (DataSlot v _ _ _) => ret (Own v)
  | Some (AccessorSlot _ prop workStore prerenderStore _ _) =>
      let* v := accessor_get prop workStore prerenderStore in ret (Own v)
  | None => let* p := get_proto w in ret (Inherited p)
  end.

(** [promise[k] = v], in strict code, on an extensible promise.  Without
    an own property the assignment looks up the chain: [Promise.prototype]
    (or an array and [Array.prototype]) and [Object.prototype] hold
    writable data properties only, but for the accessor [__proto__] of
    [Object.prototype].  So [__proto__] runs that setter, which makes an
    object (here: an array) the prototype of the promise and ignores every
    other value, and creates no own property; any other key becomes a new
    own data property. *)
Definition write (w : loc) (k : string) (v : Value) : M unit :=
  let* s := get_own w k in
  match s with
  | Some (DataSlot _ true e c) => put_own w k (DataSlot v true e c)
  | Some (DataSlot _ false _ _) => throw TypeError
  | Some (AccessorSlot promise prop _ _ _ _) => accessor_set promise prop v
  | None =>
      if decide (k = "__proto__") then
        match v with
        | VArray l => set_proto w (ArrayValue l)
        | _ => ret tt
        end
      else put_own w k (DataSlot v true true true)
  end.

(** ** The module *)

Definition makeUntrackedRootParams (underlyingParams : Params) : M loc :=
  let* cachedParams := CachedParams_get underlyingParams in
  match cachedParams with
  | Some cachedParams => ret cachedParams
  | None =>
      let* promise := Promise_resolve underlyingParams in
      CachedParams_set underlyingParams promise ;;
      forEach (Object_keys underlyingParams) (fun prop =>
        if decide (prop ∈ wellKnownProperties) then ret tt
        else write promise prop (params_get underlyingParams prop)) ;;
      ret promise
  end.

Definition makeErroringRootParams (underlyingParams : Params)
    (fallbackParams : gset string) (workStore : WorkStore)
    (prerenderStore : PrerenderStore) : M loc :=
  let* cachedParams := CachedParams_get underlyingParams in
  match cachedParams with
  | Some cachedParams => ret cachedParams
  | None =>
      let* promise := Promise_resolve underlyingParams in
      CachedParams_set underlyingParams promise ;;
      forEach (Object_keys underlyingParams) (fun prop =>
        if decide (prop ∈ wellKnownProperties) then ret tt
        else if decide (prop ∈ fallbackParams)
        then defineProperty_accessor promise prop workStore prerenderStore
        else write promise prop (params_get underlyingParams prop)) ;;
      ret promise
  end.

(** The [for ... in] loop of [createPrerenderParams], with its [break]. *)
Fixpoint hasSomeFallbackParams (fallbackParams : gset string) (keys : list string) : bool :=
  match keys with
  | [] => false
  | key :: keys =>
      if decide (key ∈ fallbackParams) then true
      else hasSomeFallbackParams fallbackParams keys
  end.

Definition createPrerenderParams (underlyingParams : Params)
    (workStore : WorkStore) (prerenderStore : PrerenderStore) : M loc :=
  match fallbackRouteParams workStore with
  | Some fallbackParams =>
      if hasSomeFallbackParams fallbackParams (Object_keys underlyingParams) then
        match prerenderStore with
        | PrerenderStoreModern renderSignal =>
            let* cachedParams := CachedParams_get underlyingParams in
            match cachedParams with
            | Some cachedParams => ret cachedParams
            | None =>
                let* promise := makeHangingPromise renderSignal "`params`" in
                CachedParams_set underlyingParams promise ;;
                ret promise
            end
        | _ =>
            makeErroringRootParams underlyingParams fallbackParams workStore prerenderStore
        end
      else makeUntrackedRootParams underlyingParams
  | None => makeUntrackedRootParams underlyingParams
  end.

(** The body of [unstable_rootParams]; its arguments are what
    [workAsyncStorage.getStore()] and [workUnitAsyncStorage.getStore()]
    return. *)
Definition unstable_rootParams_body (workStore : option WorkStore)
    (workUnitStore : option WorkUnitStore) : M Params :=
  match workStore with
  | None => throw (InvariantError "Missing workStore in unstable_rootParams")
  | Some workStore =>
      match workUnitStore with
      | Some (UnitPrerender (PrerenderStoreModern renderSignal)) =>
          let* _ := createPrerenderParams (rootParams workStore) workStore
                 (PrerenderStoreModern renderSignal) in
          ret tt
      | Some (UnitPrerender (PrerenderStorePPR dynamicTracking)) =>
          postponeWithTracking (route workStore) "rootParams" dynamicTracking
      | Some (UnitPrerender PrerenderStoreLegacy) =>
          throwToInterruptStaticGeneration "rootParams" workStore PrerenderStoreLegacy
      | _ => ret tt
      end ;;
      trackDynamicDataInDynamicRender workStore workUnitStore ;;
      ret (rootParams workStore)
  end.

(** An [async function]: the body runs to completion at the call (it has
    no [await]) and the call evaluates to a new promise, fulfilled with
    the returned value or rejected with the thrown one. *)
Definition async (body : M Params) : M loc :=
  fun σ =>
    match body σ with
    | (Normal v, σ') =>
        alloc {| settlement := Fulfilled v; own := ∅; proto := PromisePrototype |} σ'
    | (Throw e, σ') =>
        alloc {| settlement := Rejected e; own := ∅; proto := PromisePrototype |} σ'
    end.

Definition unstable_rootParams (workStore : option WorkStore)
    (workUnitStore : option WorkUnitStore) : M loc :=
  async (unstable_rootParams_body workStore workUnitStore).

(** ** Call sequences

    The three builders consult and populate the one [CachedParams]. *)
Inductive Builder :=
| ViaUntracked
| ViaErroring (fallbackParams : gset string) (workStore : WorkStore)
    (prerenderStore : PrerenderStore)
| ViaPrerender (workStore : WorkStore) (prerenderStore : PrerenderStore).

Definition run_builder (b : Builder) (underlyingParams : Params) : M loc :=
  match b with
  | ViaUntracked => makeUntrackedRootParams underlyingParams
  | ViaErroring fallbackParams workStore prerenderStore =>
      makeErroringRootParams underlyingParams fallbackParams workStore prerenderStore
  | ViaPrerender workStore prerenderStore =>
      createPrerenderParams underlyingParams workStore prerenderStore
  end.

(** What can happen to the state during a render: the builders and the
    resolver run, and the application reads and writes properties of the
    promises ([try]/[catch] around each, so a throw does not end the
    sequence). *)
Inductive Call :=
| CallBuilder (b : Builder) (underlyingParams : Params)
| CallResolver (workStore : option WorkStore) (workUnitStore : option WorkUnitStore)
| CallRead (w : loc) (k : string)
| CallWrite (w : loc) (k : string) (v : Value).

Definition run_call (c : Call) (σ : State) : State :=
  match c with
  | CallBuilder b underlyingParams => (run_builder b underlyingParams σ).2
  | CallResolver workStore workUnitStore => (unstable_rootParams workStore workUnitStore σ).2
  | CallRead w k => (read w k σ).2
  | CallWrite w k v => (write w k v σ).2
  end.

Definition run_calls (cs : list Call) (σ : State) : State :=
  foldl (fun σ c => run_call c σ) σ cs.

(** Reads and writes of one property of one promise. *)
Inductive Access :=
| ARead
| AWrite (v : Value).

Definition run_access (w : loc) (k : string) (a : Access) (σ : State) : State :=
  match a with
  | ARead => (read w k σ).2
  | AWrite v => (write w k v σ).2
  end.

Definition run_accesses (w : loc) (k : string) (l : list Access) (σ : State) : State :=
  foldl (fun σ a => run_access w k a σ) σ l.

(** The value of the last write of [l], or [v] when there is none. *)
Definition last_written (v : Value) (l : list Access) : Value :=
  foldl (fun v a => match a with ARead => v | AWrite v' => v' end) v l.

(** ** The properties a builder installs

    The slot the loop of [makeErroringRootParams] leaves under a key that
    is not reserved, and the own properties after the loop has visited
    [keys].  A key [__proto__] that is no fallback param is assigned, not
    defined: it leaves no own property, and an array value becomes the
    prototype. *)
Definition expected_slot (underlyingParams : Params) (fallbackParams : gset string)
    (workStore : WorkStore) (prerenderStore : PrerenderStore) (w : loc)
    (k : string) : Slot :=
  if decide (k ∈ fallbackParams)
  then AccessorSlot w k workStore prerenderStore true true
  else DataSlot (params_get underlyingParams k) true true true.

Definition installed (underlyingParams : Params) (fallbackParams : gset string)
    (workStore : WorkStore) (prerenderStore : PrerenderStore) (w : loc)
    (keys : list string) (m : gmap string Slot) : gmap string Slot :=
  foldl (fun m k =>
           if decide (k ∈ wellKnownProperties) then m
           else if decide (k = "__proto__" ∧ k ∉ fallbackParams) then m
           else <[k := expected_slot underlyingParams fallbackParams workStore
                         prerenderStore w k]> m) m keys.

(** The prototype after the loop has visited [keys]. *)
Definition reparented (underlyingParams : Params) (fallbackParams : gset string)
    (keys : list string) (p : Prototype) : Prototype :=
  foldl (fun p k =>
           if decide (k ∈ wellKnownProperties) then p
           else if decide (k = "__proto__" ∧ k ∉ fallbackParams) then
             match params_get underlyingParams k with
             | VArray l => ArrayValue l
             | _ => p
             end
           else p) p keys.

(** Every own property is the one the loop installs under its key. *)
Definition as_installed (underlyingParams : Params) (fallbackParams : gset string)
    (workStore : WorkStore) (prerenderStore : PrerenderStore) (w : loc)
    (m : gmap string Slot) : Prop :=
  ∀ k s, m !! k = Some s →
    s = expected_slot underlyingParams fallbackParams workStore prerenderStore w k ∧
    (k = "__proto__" → k ∈ fallbackParams).

(** The state a cache miss leaves: the new promise [o] at the next free
    location, recorded in [CachedParams] under the [Params] object. *)
Definition stored (underlyingParams : Params) (o : PromiseObj) (σ : State) : State :=
  cached (params_id underlyingParams) (next_loc σ) (allocated o σ).

(** The own properties after the loop of [makeUntrackedRootParams] has
    visited [keys]. *)
Definition copied (underlyingParams : Params) (keys : list string)
    (m : gmap string Slot) : gmap string Slot :=
  foldl (fun m k =>
           if decide (k ∈ wellKnownProperties) then m
           else if decide (k = "__proto__") then m
           else <[k := DataSlot (params_get underlyingParams k) true true true]> m) m keys.

(** The promise [makeUntrackedRootParams] builds on a cache miss. *)
Definition untracked_wrapper (underlyingParams : Params) : PromiseObj :=
  {| settlement := Fulfilled underlyingParams;
     own := copied underlyingParams (Object_keys underlyingParams) ∅;
     proto := reparented underlyingParams ∅ (Object_keys underlyingParams)
                PromisePrototype |}.

(** The promise [makeErroringRootParams] builds at [w] on a cache miss. *)
Definition erroring_wrapper (underlyingParams : Params) (fallbackParams : gset string)
    (workStore : WorkStore) (prerenderStore : PrerenderStore) (w : loc) : PromiseObj :=
  {| settlement := Fulfilled underlyingParams;
     own := installed underlyingParams fallbackParams workStore prerenderStore w
              (Object_keys underlyingParams) ∅;
     proto := reparented underlyingParams fallbackParams (Object_keys underlyingParams)
                PromisePrototype |}.

(** The promise [createPrerenderParams] builds at [w] on a cache miss. *)
Definition prerender_wrapper (underlyingParams : Params) (workStore : WorkStore)
    (prerenderStore : PrerenderStore) (w : loc) : PromiseObj :=
  match fallbackRouteParams workStore with
  | Some fallbackParams =>
      if hasSomeFallbackParams fallbackParams (Object_keys underlyingParams) then
        match prerenderStore with
        | PrerenderStoreModern renderSignal =>
            {| settlement := Hanging renderSignal "`params`"; own := ∅;
               proto := PromisePrototype |}
        | _ => erroring_wrapper underlyingParams fallbackParams workStore prerenderStore w
        end
      else untracked_wrapper underlyingParams
  | None => untracked_wrapper underlyingParams
  end.

Definition built (b : Builder) (underlyingParams : Params) (w : loc) : PromiseObj :=
  match b with
  | ViaUntracked => untracked_wrapper underlyingParams
  | ViaErroring fallbackParams workStore prerenderStore =>
      erroring_wrapper underlyingParams fallbackParams workStore prerenderStore w
  | ViaPrerender workStore prerenderStore =>
      prerender_wrapper underlyingParams workStore prerenderStore w
  end.

(** The event of the trap of a placeholder key. *)
Definition trap_event (workStore : WorkStore) (prerenderStore : PrerenderStore)
    (k : string) : Event :=
  match prerenderStore with
  | PrerenderStorePPR dynamicTracking =>
      EvPostponeWithTracking (route workStore)
        (describeStringPropertyAccess "rootParams" k) dynamicTracking
  | _ =>
      EvThrowToInterruptStaticGeneration
        (describeStringPropertyAccess "rootParams" k) (route workStore)
  end.

Definition trap_exn (workStore : WorkStore) (prerenderStore : PrerenderStore)
    (k : string) : Exn :=
  match prerenderStore with
  | PrerenderStorePPR _ =>
      PostponeError (route workStore) (describeStringPropertyAccess "rootParams" k)
  | _ =>
      DynamicServerError (route workStore) (describeStringPropertyAccess "rootParams" k)
  end.

End Host.

End RootParams.

Import RootParams.

(** ** Invariants of the state *)

(** The log of [CachedParams.set] calls and the map agree, and no key was
    set twice. *)
Definition cache_ok (σ : State) : Prop :=
  NoDup (cache_sets σ) ∧
  ∀ id, id ∈ cache_sets σ ↔ is_Some (CachedParams σ !! id).

(** Locations in use lie below the allocation counter. *)
Definition heap_ok (σ : State) : Prop :=
  (∀ w o, heap σ !! w = Some o → w < next_loc σ) ∧
  (∀ id w, CachedParams σ !! id = Some w → w < next_loc σ).

(** [σ'] comes after [σ]: the invariants carry over and no entry of
    [CachedParams] is dropped or changed. *)
Definition extends (σ σ' : State) : Prop :=
  (cache_ok σ → cache_ok σ') ∧ (heap_ok σ → heap_ok σ') ∧
  CachedParams σ ⊆ CachedParams σ'.

Definition preserves {A} (m : M A) : Prop := ∀ σ, extends σ (m σ).2.

(** ** A concrete host and render, for examples

    The members of [Promise.prototype], which the reserved names have to
    keep for the wrapper to stay awaitable, and a description of a property
    access. *)
Definition promise_members : gset string := {[ "then"; "catch"; "finally" ]}.

Definition describe_access (target prop : string) : string :=
  "`" +:+ target +:+ "." +:+ prop +:+ "`".

Definition en_us : Params :=
  {| params_id := 0;
     params_entries := [("lang", VString "en"); ("locale", VString "us")] |}.

(** A fallback shell of [/[lang]/[locale]]: [lang] is not known yet. *)
Definition shell_params : Params :=
  {| params_id := 0;
     params_entries := [("lang", VString "[lang]"); ("locale", VString "us")] |}.

Definition shell_store : WorkStore :=
  {| route := "/[lang]/[locale]"; rootParams := shell_params;
     fallbackRouteParams := Some {[ "lang" ]} |}.

Definition en_us_store : WorkStore :=
  {| route := "/[lang]/[locale]"; rootParams := en_us;
     fallbackRouteParams := Some ∅ |}.

(** A route whose root parameter is called [then]. *)
Definition then_params : Params :=
  {| params_id := 0; params_entries := [("then", VString "[then]")] |}.

Definition then_store : WorkStore :=
  {| route := "/[then]"; rootParams := then_params;
     fallbackRouteParams := Some {[ "then" ]} |}.

(** ** Invariants of the promises *)

(** Every promise of [σ] is still there in [σ'], settled as before. *)
Definition settled_alike (σ σ' : State) : Prop :=
  ∀ w o, heap σ !! w = Some o →
    ∃ o', heap σ' !! w = Some o' ∧ settlement o' = settlement o.

Definition steady (σ σ' : State) : Prop :=
  extends σ σ' ∧ (heap_ok σ → settled_alike σ σ').

Definition steadily {A} (m : M A) : Prop := ∀ σ, steady σ (m σ).2.

(** The accessors of the promise at [w] are those [makeErroringRootParams]
    installs on it: the closures under key [k] capture [w] and [k]. *)
Definition self_targeted (w : loc) (o : PromiseObj) : Prop :=
  ∀ k p prop ws ps e c,
    own o !! k = Some (AccessorSlot p prop ws ps e c) → p = w ∧ prop = k.

(** A promise may be cached under the object [id] when it hangs or is
    fulfilled with that object. *)
Definition settles_to (id : loc) (s : Settlement) : Prop :=
  match s with
  | Fulfilled P => params_id P = id
  | Hanging _ _ => True
  | Rejected _ => False
  end.

(** Every entry of [CachedParams] is a promise of the heap that hangs or is
    fulfilled with the object it is cached under. *)
Definition cache_sound (σ : State) : Prop :=
  ∀ id w, CachedParams σ !! id = Some w →
    ∃ o, heap σ !! w = Some o ∧ settles_to id (settlement o).

(** ** More renders, for examples *)


(** The root layout without parameters. *)
Definition no_params : Params := {| params_id := 0; params_entries := [] |}.

Definition landing_store : WorkStore :=
  {| route := "/landing"; rootParams := no_params;
     fallbackRouteParams := Some {[ "lang" ]} |}.

(** The [Params] object of another render of the same page as [en_us]. *)
Definition en_us_again : Params :=
  {| params_id := 1;
     params_entries := [("lang", VString "en"); ("locale", VString "us")] |}.

(** * Properties *)

(** ** The monad and the state *)

Lemma bind_normal {A B} (m : M A) (k : A → M B) σ a σ' :
  m σ = (Normal a, σ') → bind m k σ = k a σ'.
Proof. intros H. unfold bind. by rewrite H. Qed.

Lemma forEach_ext {A} (l : list A) (f g : A → M unit) :
  (∀ x, f x = g x) → forEach l f = forEach l g.
Proof.
  intros Hfg. induction l as [|x l IH]; simpl; [done|].
  by rewrite Hfg, IH.
Qed.

Lemma set_heap_id σ w o :
  heap σ !! w = Some o →
  set_heap (<[w := {| settlement := settlement o; own := own o; proto := proto o |}]>
              (heap σ)) σ = σ.
Proof.
  intros H. destruct σ as [h n c l e], o as [st m pr]; simpl in *.
  unfold set_heap; simpl. by rewrite insert_id.
Qed.

Lemma set_heap_twice σ w o1 o2 :
  set_heap (<[w := o2]> (heap (set_heap (<[w := o1]> (heap σ)) σ)))
           (set_heap (<[w := o1]> (heap σ)) σ)
  = set_heap (<[w := o2]> (heap σ)) σ.
Proof. unfold set_heap; simpl. by rewrite insert_insert_eq. Qed.

Lemma get_own_eq w k σ o :
  heap σ !! w = Some o → get_own w k σ = (Normal (own o !! k), σ).
Proof. intros H. unfold get_own. by rewrite H. Qed.

Lemma put_own_eq w k s σ o :
  heap σ !! w = Some o →
  put_own w k s σ
  = (Normal tt,
     set_heap (<[w := {| settlement := settlement o; own := <[k := s]> (own o);
                         proto := proto o |}]> (heap σ)) σ).
Proof. intros H. unfold put_own. by rewrite H. Qed.

Lemma set_proto_eq w p σ o :
  heap σ !! w = Some o →
  set_proto w p σ
  = (Normal tt,
     set_heap (<[w := {| settlement := settlement o; own := own o; proto := p |}]>
                 (heap σ)) σ).
Proof. intros H. unfold set_proto. by rewrite H. Qed.

Lemma get_proto_eq w σ o :
  heap σ !! w = Some o → get_proto w σ = (Normal (proto o), σ).
Proof. intros H. unfold get_proto. by rewrite H. Qed.

(** ** Invariants along a computation *)

Lemma extends_refl σ : extends σ σ.
Proof. split; [done|]. by split. Qed.

Lemma extends_trans σ1 σ2 σ3 : extends σ1 σ2 → extends σ2 σ3 → extends σ1 σ3.
Proof.
  intros (Hc1 & Hh1 & Hs1) (Hc2 & Hh2 & Hs2).
  split; [tauto|]. split; [tauto|]. by etrans.
Qed.

Lemma preserves_ret {A} (a : A) : preserves (ret a).
Proof. intros σ. apply extends_refl. Qed.

Lemma preserves_throw {A} e : preserves (throw (A := A) e).
Proof. intros σ. apply extends_refl. Qed.

Lemma preserves_bind {A B} (m : M A) (k : A → M B) :
  preserves m → (∀ a, preserves (k a)) → preserves (bind m k).
Proof.
  intros Hm Hk σ. unfold bind. specialize (Hm σ).
  destruct (m σ) as [[a|e] σ']; simpl in *; [|done].
  eapply extends_trans; [done|apply Hk].
Qed.

Lemma preserves_log_event e : preserves (log_event e).
Proof. intros σ. split; [intros H; exact H|]. split; [intros H; exact H|done]. Qed.

Lemma preserves_get_own w k : preserves (get_own w k).
Proof. intros σ. unfold get_own. destruct (heap σ !! w); apply extends_refl. Qed.

Lemma preserves_put_own w k s : preserves (put_own w k s).
Proof.
  intros σ. unfold put_own. destruct (heap σ !! w) as [o|] eqn:Hw; [|apply extends_refl].
  split; [intros H; exact H|]. split; [|done].
  intros [Hh Hc]. split; [|exact Hc].
  intros w' o'. simpl. rewrite lookup_insert. case_decide as Hww; [subst w'|apply Hh].
  intros _. by apply Hh in Hw.
Qed.

Lemma preserves_get_proto w : preserves (get_proto w).
Proof. intros σ. unfold get_proto. destruct (heap σ !! w); apply extends_refl. Qed.

Lemma preserves_set_proto w p : preserves (set_proto w p).
Proof.
  intros σ. unfold set_proto. destruct (heap σ !! w) as [o|] eqn:Hw; [|apply extends_refl].
  split; [intros H; exact H|]. split; [|done].
  intros [Hh Hc]. split; [|exact Hc].
  intros w' o'. simpl. rewrite lookup_insert. case_decide as Hww; [subst w'|apply Hh].
  intros _. by apply Hh in Hw.
Qed.

Lemma preserves_alloc o : preserves (alloc o).
Proof.
  intros σ. split; [intros H; exact H|]. split; [|done].
  intros [Hh Hc]. split; simpl.
  - intros w' o'. rewrite lookup_insert. case_decide; [lia|].
    intros Hw. apply Hh in Hw. lia.
  - intros id w' Hw. apply Hc in Hw. lia.
Qed.

Lemma extends_stored P o σ :
  CachedParams σ !! params_id P = None → extends σ (stored P o σ).
Proof.
  intros Hmiss. split; [|split].
  - intros [Hnd Hiff]. split; simpl.
    + apply NoDup_cons. split; [|done]. rewrite Hiff, Hmiss. by intros [? ?].
    + intros id. rewrite elem_of_cons, Hiff, lookup_insert.
      case_decide; [split; eauto|]. split; [intros [?|?]; [congruence|done]|by right].
  - intros [Hh Hc]. split; simpl.
    + intros w' o'. rewrite lookup_insert. case_decide; [lia|].
      intros Hw. apply Hh in Hw. lia.
    + intros id w'. rewrite lookup_insert. case_decide; [intros [= <-]; lia|].
      intros Hw. apply Hc in Hw. lia.
  - simpl. by apply insert_subseteq.
Qed.

Create HintDb preserves.
#[local] Hint Resolve preserves_ret preserves_throw preserves_bind preserves_log_event
  preserves_get_own preserves_put_own preserves_get_proto preserves_set_proto
  preserves_alloc : preserves.

Section Properties.

Variable wellKnownProperties : gset string.
Variable describeStringPropertyAccess : string → string → string.

Local Abbreviation makeUntrackedRootParams := (makeUntrackedRootParams wellKnownProperties).
Local Abbreviation makeErroringRootParams := (makeErroringRootParams wellKnownProperties).
Local Abbreviation createPrerenderParams := (createPrerenderParams wellKnownProperties).
Local Abbreviation unstable_rootParams_body := (unstable_rootParams_body wellKnownProperties).
Local Abbreviation unstable_rootParams := (unstable_rootParams wellKnownProperties).
Local Abbreviation run_builder := (run_builder wellKnownProperties).
Local Abbreviation run_call := (run_call wellKnownProperties describeStringPropertyAccess).
Local Abbreviation run_calls := (run_calls wellKnownProperties describeStringPropertyAccess).
Local Abbreviation read := (read describeStringPropertyAccess).
Local Abbreviation run_accesses := (run_accesses describeStringPropertyAccess).
Local Abbreviation installed := (installed wellKnownProperties).
Local Abbreviation copied := (copied wellKnownProperties).
Local Abbreviation trap_event := (trap_event describeStringPropertyAccess).
Local Abbreviation trap_exn := (trap_exn describeStringPropertyAccess).

(** ** The loop of the builders *)

Section Loop.

Variables (P : Params) (fb : gset string) (ws : WorkStore) (ps : PrerenderStore).
Variable w : loc.

Let body : string → M unit := fun prop =>
  if decide (prop ∈ wellKnownProperties) then ret tt
  else if decide (prop ∈ fb) then defineProperty_accessor w prop ws ps
  else write w prop (params_get P prop).

Local Abbreviation as_installed := (as_installed P fb ws ps w).

Lemma as_installed_step m k :
  as_installed m → as_installed (installed P fb ws ps w [k] m).
Proof.
  intros Hm. unfold installed. cbn [foldl].
  destruct (decide (k ∈ wellKnownProperties)); [done|].
  destruct (decide (k = "__proto__" ∧ k ∉ fb)) as [|Hno]; [done|].
  intros k' s. rewrite lookup_insert. case_decide as Hk; [|by apply Hm].
  intros [= <-]. subst k'. split; [done|]. intros Hp.
  destruct (decide (k ∈ fb)); [done|]. by destruct Hno.
Qed.

Lemma body_step k σ o :
  heap σ !! w = Some o → as_installed (own o) →
  body k σ
  = (Normal tt,
     set_heap (<[w := {| settlement := settlement o;
                         own := installed P fb ws ps w [k] (own o);
                         proto := reparented wellKnownProperties P fb [k] (proto o) |}]>
                 (heap σ)) σ).
Proof.
  intros Hw Hinv. unfold body, installed, reparented. cbn [foldl].
  destruct (decide (k ∈ wellKnownProperties)) as [|Hwk].
  { unfold ret. by rewrite set_heap_id. }
  destruct (decide (k ∈ fb)) as [Hfb|Hfb].
  - rewrite !decide_False by (by intros [_ ?]).
    unfold expected_slot. rewrite decide_True by done.
    unfold defineProperty_accessor.
    rewrite (bind_normal _ _ _ _ _ (get_own_eq w k σ o Hw)).
    destruct (own o !! k) as [s|] eqn:Hk; [|by apply put_own_eq].
    destruct (Hinv _ _ Hk) as [-> _]. unfold expected_slot.
    rewrite decide_True by done. simpl. by apply put_own_eq.
  - unfold write.
    rewrite (bind_normal _ _ _ _ _ (get_own_eq w k σ o Hw)).
    destruct (own o !! k) as [s|] eqn:Hk.
    + destruct (Hinv _ _ Hk) as [-> Hp].
      rewrite !decide_False by (intros [Heq _]; by apply Hfb, Hp).
      unfold expected_slot. rewrite decide_False by done. by apply put_own_eq.
    + destruct (decide (k = "__proto__")) as [->|Hne].
      * rewrite !decide_True by done.
        destruct (params_get P "__proto__");
          [unfold ret; by rewrite set_heap_id|by apply set_proto_eq|
           unfold ret; by rewrite set_heap_id].
      * rewrite !decide_False by (by intros [? _]).
        unfold expected_slot. rewrite decide_False by done. by apply put_own_eq.
Qed.

Lemma forEach_installed ks : ∀ σ o,
  heap σ !! w = Some o → as_installed (own o) →
  forEach ks body σ
  = (Normal tt,
     set_heap (<[w := {| settlement := settlement o;
                         own := installed P fb ws ps w ks (own o);
                         proto := reparented wellKnownProperties P fb ks (proto o) |}]>
                 (heap σ)) σ).
Proof.
  induction ks as [|k ks IH]; intros σ o Hw Hinv.
  { simpl. unfold ret. by rewrite set_heap_id. }
  cbn [forEach].
  rewrite (bind_normal _ _ _ _ _ (body_step k σ o Hw Hinv)).
  erewrite IH; cycle 1.
  { simpl. apply lookup_insert_eq. }
  { simpl. by apply as_installed_step. }
  by rewrite set_heap_twice.
Qed.

End Loop.

Lemma installed_lookup P fb ws ps w ks : ∀ m k,
  installed P fb ws ps w ks m !! k
  = if decide (k ∈ ks ∧ (k ∉ wellKnownProperties) ∧ (k = "__proto__" → k ∈ fb))
    then Some (expected_slot P fb ws ps w k) else m !! k.
Proof.
  induction ks as [|k0 ks IH]; intros m k.
  { destruct (decide (k ∈ [] ∧ (k ∉ wellKnownProperties) ∧ (k = "__proto__" → k ∈ fb)))
      as [[H _]|_]; [|done].
    by apply not_elem_of_nil in H. }
  change (installed P fb ws ps w (k0 :: ks) m)
    with (installed P fb ws ps w ks (installed P fb ws ps w [k0] m)).
  rewrite IH.
  assert (Hstep : installed P fb ws ps w [k0] m
                  = if decide (k0 ∈ wellKnownProperties) then m
                    else if decide (k0 = "__proto__" ∧ k0 ∉ fb) then m
                    else <[k0 := expected_slot P fb ws ps w k0]> m) by done.
  rewrite Hstep. clear Hstep IH.
  destruct (decide (k ∈ ks ∧ (k ∉ wellKnownProperties) ∧ (k = "__proto__" → k ∈ fb)))
    as [(Hin & Hwk & Hp)|Hno];
    destruct (decide (k ∈ k0 :: ks ∧ (k ∉ wellKnownProperties) ∧
                      (k = "__proto__" → k ∈ fb)))
      as [(Hin' & Hwk' & Hp')|Hno'];
    try done.
  - exfalso. apply Hno'. split; [by right|done].
  - apply elem_of_cons in Hin' as [->|Hin']; [|by destruct Hno].
    rewrite decide_False by done.
    rewrite decide_False; [by rewrite lookup_insert_eq|].
    intros [Hk Hfb]. by apply Hfb, Hp'.
  - destruct (decide (k0 ∈ wellKnownProperties)); [done|].
    destruct (decide (k0 = "__proto__" ∧ k0 ∉ fb)) as [[Hk Hfb]|Hyes]; [done|].
    rewrite lookup_insert_ne; [done|]. intros ->. apply Hno'.
    split; [by left|]. split; [done|]. intros Hk.
    destruct (decide (k ∈ fb)); [done|]. by destruct Hyes.
Qed.

(** Without fallback params the loop only copies values. *)
Lemma installed_no_fallback P ws ps w ks : ∀ m,
  installed P ∅ ws ps w ks m = copied P ks m.
Proof.
  unfold RootParams.installed, RootParams.copied.
  induction ks as [|k ks IH]; intros m; [done|].
  cbn [foldl]. rewrite IH. f_equal.
  destruct (decide (k ∈ wellKnownProperties)); [done|].
  unfold expected_slot.
  destruct (decide (k ∈ (∅ : gset string))) as [Hk|Hk];
    [by apply not_elem_of_empty in Hk|].
  destruct (decide (k = "__proto__")) as [->|Hne].
  - by rewrite decide_True.
  - rewrite decide_False; [done|]. by intros [? _].
Qed.

Lemma copied_lookup P ks m k :
  copied P ks m !! k
  = if decide (k ∈ ks ∧ (k ∉ wellKnownProperties) ∧ k ≠ "__proto__")
    then Some (DataSlot (params_get P k) true true true) else m !! k.
Proof.
  rewrite <- (installed_no_fallback P
                {| route := ""; rootParams := P; fallbackRouteParams := None |}
                PrerenderStoreLegacy 0).
  rewrite installed_lookup. unfold expected_slot.
  destruct (decide (k ∈ (∅ : gset string))) as [Hk|Hk];
    [by apply not_elem_of_empty in Hk|].
  destruct (decide (k ∈ ks ∧ (k ∉ wellKnownProperties) ∧ (k = "__proto__" → k ∈ ∅)))
    as [(Hin & Hwk & Hp)|Hno].
  - rewrite decide_True; [done|]. split; [done|]. split; [done|].
    intros Heq. by apply Hk, Hp.
  - rewrite decide_False; [done|]. intros (Hin & Hwk & Hne). apply Hno.
    split; [done|]. split; [done|]. by intros Heq.
Qed.

(** The prototype after the loop: replaced when [__proto__] is a key that
    is assigned and holds an array. *)
Lemma reparented_eq P fb ks : ∀ p,
  reparented wellKnownProperties P fb ks p
  = if decide ("__proto__" ∈ ks ∧ ("__proto__" ∉ wellKnownProperties) ∧ "__proto__" ∉ fb)
    then match params_get P "__proto__" with
         | VArray l => ArrayValue l
         | _ => p
         end
    else p.
Proof.
  induction ks as [|k0 ks IH]; intros p.
  { rewrite decide_False; [done|]. intros [H _]. by apply not_elem_of_nil in H. }
  change (reparented wellKnownProperties P fb (k0 :: ks) p)
    with (reparented wellKnownProperties P fb ks
            (if decide (k0 ∈ wellKnownProperties) then p
             else if decide (k0 = "__proto__" ∧ k0 ∉ fb) then
               match params_get P k0 with
               | VArray l => ArrayValue l
               | _ => p
               end
             else p)).
  rewrite IH.
  destruct (decide ("__proto__" ∈ ks ∧ ("__proto__" ∉ wellKnownProperties) ∧
                    "__proto__" ∉ fb)) as [(Hin & Hwk & Hfb)|Hno].
  - rewrite (decide_True (P := "__proto__" ∈ k0 :: ks ∧ _)); [|split; [by right|done]].
    destruct (decide (k0 ∈ wellKnownProperties)); [done|].
    destruct (decide (k0 = "__proto__" ∧ k0 ∉ fb)) as [[-> _]|]; [|done].
    by destruct (params_get P "__proto__").
  - destruct (decide (k0 ∈ wellKnownProperties)) as [Hwk0|Hwk0].
    + rewrite decide_False; [done|]. intros (Hin & Hwk & Hfb). apply Hno.
      apply elem_of_cons in Hin as [<-|Hin]; [done|]. done.
    + destruct (decide (k0 = "__proto__" ∧ k0 ∉ fb)) as [[-> Hfb0]|Hno0].
      * rewrite decide_True; [done|]. split; [by left|done].
      * rewrite decide_False; [done|]. intros (Hin & Hwk & Hfb). 
        apply elem_of_cons in Hin as [<-|Hin]; [by apply Hno0|]. by apply Hno.
Qed.

(** ** The builders: cache hit and cache miss *)

Lemma makeErroringRootParams_hit P fb ws ps σ c :
  CachedParams σ !! params_id P = Some c →
  makeErroringRootParams P fb ws ps σ = (Normal c, σ).
Proof.
  intros H. unfold RootParams.makeErroringRootParams, bind, CachedParams_get.
  by rewrite H.
Qed.

Lemma makeErroringRootParams_miss P fb ws ps σ :
  CachedParams σ !! params_id P = None →
  makeErroringRootParams P fb ws ps σ
  = (Normal (next_loc σ),
     stored P (erroring_wrapper wellKnownProperties P fb ws ps (next_loc σ)) σ).
Proof.
  intros H. unfold RootParams.makeErroringRootParams.
  rewrite (bind_normal _ _ σ None σ) by (unfold CachedParams_get; by rewrite H).
  set (o0 := {| settlement := Fulfilled P; own := ∅; proto := PromisePrototype |}).
  rewrite (bind_normal _ _ σ (next_loc σ) (allocated o0 σ)) by done.
  rewrite (bind_normal _ _ _ tt (stored P o0 σ)) by done.
  erewrite bind_normal; cycle 1.
  { apply (forEach_installed P fb ws ps (next_loc σ) _ _ o0).
    - simpl. apply lookup_insert_eq.
    - intros k s. simpl. by rewrite lookup_empty. }
  unfold ret, stored, cached, allocated, set_heap, erroring_wrapper; simpl.
  by rewrite insert_insert_eq.
Qed.

Lemma makeUntrackedRootParams_hit P σ c :
  CachedParams σ !! params_id P = Some c →
  makeUntrackedRootParams P σ = (Normal c, σ).
Proof.
  intros H. unfold RootParams.makeUntrackedRootParams, bind, CachedParams_get.
  by rewrite H.
Qed.

Lemma makeUntrackedRootParams_miss P σ :
  CachedParams σ !! params_id P = None →
  makeUntrackedRootParams P σ
  = (Normal (next_loc σ),
     stored P (untracked_wrapper wellKnownProperties P) σ).
Proof.
  intros H. unfold RootParams.makeUntrackedRootParams.
  rewrite (bind_normal _ _ σ None σ) by (unfold CachedParams_get; by rewrite H).
  set (o0 := {| settlement := Fulfilled P; own := ∅; proto := PromisePrototype |}).
  rewrite (bind_normal _ _ σ (next_loc σ) (allocated o0 σ)) by done.
  rewrite (bind_normal _ _ _ tt (stored P o0 σ)) by done.
  set (ws0 := {| route := ""; rootParams := P; fallbackRouteParams := None |}).
  pose proof (forEach_installed P ∅ ws0 PrerenderStoreLegacy (next_loc σ)
                (Object_keys P) (stored P o0 σ) o0) as Hloop.
  rewrite (forEach_ext _ _ (fun prop =>
             if decide (prop ∈ wellKnownProperties) then ret tt
             else write (next_loc σ) prop (params_get P prop))) in Hloop.
  2:{ intros k. destruct (decide (k ∈ wellKnownProperties)); [done|].
      destruct (decide (k ∈ (∅ : gset string))) as [Hk|]; [|done].
      by apply not_elem_of_empty in Hk. }
  assert (Hh : heap (stored P o0 σ) !! next_loc σ = Some o0)
    by (simpl; apply lookup_insert_eq).
  assert (Hi : as_installed P ∅ ws0 PrerenderStoreLegacy (next_loc σ) (own o0))
    by (intros k s; simpl; by rewrite lookup_empty).
  rewrite (bind_normal _ _ _ _ _ (Hloop Hh Hi)).
  rewrite installed_no_fallback.
  unfold ret, stored, cached, allocated, set_heap, untracked_wrapper; simpl.
  by rewrite insert_insert_eq.
Qed.

Lemma hasSomeFallbackParams_true fb ks :
  hasSomeFallbackParams fb ks = true ↔ ∃ k, k ∈ ks ∧ k ∈ fb.
Proof.
  induction ks as [|k0 ks IH]; simpl.
  { split; [done|]. intros (k & H & _). by apply not_elem_of_nil in H. }
  destruct (decide (k0 ∈ fb)) as [Hk|Hk].
  { split; [|done]. intros _. exists k0. split; [by left|done]. }
  rewrite IH. split.
  - intros (k & Hin & Hfb). exists k. split; [by right|done].
  - intros (k & Hin & Hfb). apply elem_of_cons in Hin as [->|Hin]; [done|].
    by exists k.
Qed.

Lemma createPrerenderParams_hit P ws ps σ c :
  CachedParams σ !! params_id P = Some c →
  createPrerenderParams P ws ps σ = (Normal c, σ).
Proof.
  intros H. unfold RootParams.createPrerenderParams.
  destruct (fallbackRouteParams ws) as [fb|]; [|by apply makeUntrackedRootParams_hit].
  destruct (hasSomeFallbackParams fb (Object_keys P));
    [|by apply makeUntrackedRootParams_hit].
  destruct ps; try by apply makeErroringRootParams_hit.
  unfold bind, CachedParams_get. by rewrite H.
Qed.

Lemma createPrerenderParams_miss P ws ps σ :
  CachedParams σ !! params_id P = None →
  createPrerenderParams P ws ps σ
  = (Normal (next_loc σ),
     stored P (prerender_wrapper wellKnownProperties P ws ps (next_loc σ)) σ).
Proof.
  intros H. unfold RootParams.createPrerenderParams, prerender_wrapper.
  destruct (fallbackRouteParams ws) as [fb|]; [|by apply makeUntrackedRootParams_miss].
  destruct (hasSomeFallbackParams fb (Object_keys P));
    [|by apply makeUntrackedRootParams_miss].
  destruct ps; try by apply makeErroringRootParams_miss.
  unfold bind, CachedParams_get. by rewrite H.
Qed.

Lemma run_builder_hit b P σ c :
  CachedParams σ !! params_id P = Some c → run_builder b P σ = (Normal c, σ).
Proof.
  destruct b; simpl; eauto using makeUntrackedRootParams_hit,
    makeErroringRootParams_hit, createPrerenderParams_hit.
Qed.

Lemma run_builder_miss b P σ :
  CachedParams σ !! params_id P = None →
  run_builder b P σ
  = (Normal (next_loc σ), stored P (built wellKnownProperties b P (next_loc σ)) σ).
Proof.
  destruct b; simpl; eauto using makeUntrackedRootParams_miss,
    makeErroringRootParams_miss, createPrerenderParams_miss.
Qed.

(** ** The invariants along reads, writes and calls *)

Lemma preserves_postponeWithTracking r e t : preserves (postponeWithTracking r e t).
Proof. unfold postponeWithTracking. auto with preserves. Qed.

Lemma preserves_throwToInterruptStaticGeneration e ws ps :
  preserves (throwToInterruptStaticGeneration e ws ps).
Proof. unfold throwToInterruptStaticGeneration. auto with preserves. Qed.

Lemma preserves_defineProperty_value w k v : preserves (defineProperty_value w k v).
Proof.
  unfold defineProperty_value. apply preserves_bind; [auto with preserves|].
  intros [s|]; [|auto with preserves].
  destruct (slot_configurable s); [auto with preserves|].
  destruct s as [? [] [] []|]; auto with preserves.
Qed.

Lemma preserves_read w k : preserves (read w k).
Proof.
  unfold RootParams.read. apply preserves_bind; [auto with preserves|].
  intros [[]|]; [auto with preserves| |auto with preserves].
  apply preserves_bind; [|auto with preserves].
  unfold accessor_get. apply preserves_bind; [|auto with preserves].
  destruct prerenderStore; auto using preserves_postponeWithTracking,
    preserves_throwToInterruptStaticGeneration.
Qed.

Lemma preserves_write w k v : preserves (write w k v).
Proof.
  unfold write. apply preserves_bind; [auto with preserves|].
  intros [[? []|]|]; auto using preserves_defineProperty_value with preserves.
  case_decide; [|auto with preserves]. destruct v; auto with preserves.
Qed.

Lemma preserves_run_builder b P : preserves (run_builder b P).
Proof.
  intros σ. destruct (CachedParams σ !! params_id P) as [c|] eqn:Hc.
  - rewrite (run_builder_hit _ _ _ _ Hc). apply extends_refl.
  - rewrite (run_builder_miss _ _ _ Hc). by apply extends_stored.
Qed.

Lemma preserves_async body : preserves body → preserves (async body).
Proof.
  intros Hb σ. unfold async. specialize (Hb σ).
  destruct (body σ) as [[v|e] σ']; simpl in *;
    (eapply extends_trans; [done|apply preserves_alloc]).
Qed.

Lemma preserves_unstable_rootParams_body wso wus :
  preserves (unstable_rootParams_body wso wus).
Proof.
  unfold RootParams.unstable_rootParams_body.
  destruct wso as [ws|]; [|auto with preserves].
  apply preserves_bind; [|intros _; unfold trackDynamicDataInDynamicRender;
                          auto with preserves].
  destruct wus as [[[sig|t|]| | |]|]; auto using preserves_postponeWithTracking,
    preserves_throwToInterruptStaticGeneration with preserves.
  apply preserves_bind; [|auto with preserves].
  apply (preserves_run_builder (ViaPrerender ws (PrerenderStoreModern sig))).
Qed.

Lemma extends_run_call c σ : extends σ (run_call c σ).
Proof.
  destruct c; simpl.
  - apply preserves_run_builder.
  - apply preserves_async, preserves_unstable_rootParams_body.
  - apply preserves_read.
  - apply preserves_write.
Qed.

Lemma extends_run_calls cs : ∀ σ, extends σ (run_calls cs σ).
Proof.
  induction cs as [|c cs IH]; intros σ; [apply extends_refl|].
  eapply extends_trans; [apply (extends_run_call c)|apply IH].
Qed.

Lemma cache_ok_empty : cache_ok empty_state.
Proof.
  split; [constructor|]. intros id. simpl. rewrite lookup_empty.
  split; [by intros ?%not_elem_of_nil|by intros [? ?]].
Qed.

Lemma heap_ok_empty : heap_ok empty_state.
Proof. split; simpl; intros ? ?; by rewrite lookup_empty. Qed.

(** Whatever path builds or finds it, the wrapper of [P] is afterwards the
    entry of [P] in [CachedParams]. *)
Lemma run_builder_cached b P σ :
  ∃ w, (run_builder b P σ).1 = Normal w ∧
       CachedParams (run_builder b P σ).2 !! params_id P = Some w.
Proof.
  destruct (CachedParams σ !! params_id P) as [c|] eqn:Hc.
  - rewrite (run_builder_hit _ _ _ _ Hc). by exists c.
  - rewrite (run_builder_miss _ _ _ Hc). exists (next_loc σ).
    split; [done|]. simpl. apply lookup_insert_eq.
Qed.

(** ** Reads and writes, by the kind of slot *)

Lemma own_slot_heap σ w k s :
  own_slot σ w k = Some s → ∃ o, heap σ !! w = Some o ∧ own o !! k = Some s.
Proof.
  unfold own_slot. destruct (heap σ !! w) as [o|]; [|done]. simpl. eauto.
Qed.

Lemma read_data σ w k v wr e c :
  own_slot σ w k = Some (DataSlot v wr e c) → read w k σ = (Normal (Own v), σ).
Proof.
  intros (o & Hw & Hk)%own_slot_heap. unfold RootParams.read.
  rewrite (bind_normal _ _ _ _ _ (get_own_eq w k σ o Hw)). by rewrite Hk.
Qed.

Lemma read_absent σ w k o p :
  heap σ !! w = Some o → own o !! k = None → proto o = p →
  read w k σ = (Normal (Inherited p), σ).
Proof.
  intros Hw Hk <-. unfold RootParams.read.
  rewrite (bind_normal _ _ _ _ _ (get_own_eq w k σ o Hw)). rewrite Hk.
  by rewrite (bind_normal _ _ _ _ _ (get_proto_eq w σ o Hw)).
Qed.

Lemma read_accessor σ w k p prop ws ps e c :
  own_slot σ w k = Some (AccessorSlot p prop ws ps e c) →
  read w k σ = (Throw (trap_exn ws ps prop), add_event (trap_event ws ps prop) σ).
Proof.
  intros (o & Hw & Hk)%own_slot_heap. unfold RootParams.read.
  rewrite (bind_normal _ _ _ _ _ (get_own_eq w k σ o Hw)). rewrite Hk.
  by destruct ps.
Qed.

Lemma write_accessor σ w k ws ps e v :
  own_slot σ w k = Some (AccessorSlot w k ws ps e true) →
  ∃ σ', write w k v σ = (Normal tt, σ') ∧
        own_slot σ' w k = Some (DataSlot v true true true) ∧
        events σ' = events σ.
Proof.
  intros (o & Hw & Hk)%own_slot_heap. unfold write.
  rewrite (bind_normal _ _ _ _ _ (get_own_eq w k σ o Hw)). rewrite Hk.
  unfold accessor_set, defineProperty_value.
  rewrite (bind_normal _ _ _ _ _ (get_own_eq w k σ o Hw)). rewrite Hk. simpl.
  rewrite (put_own_eq _ _ _ _ _ Hw). eexists. split; [done|]. split; [|done].
  unfold own_slot; simpl. rewrite lookup_insert_eq. simpl. apply lookup_insert_eq.
Qed.

Lemma write_data σ w k v0 e c v :
  own_slot σ w k = Some (DataSlot v0 true e c) →
  ∃ σ', write w k v σ = (Normal tt, σ') ∧
        own_slot σ' w k = Some (DataSlot v true e c) ∧
        events σ' = events σ.
Proof.
  intros (o & Hw & Hk)%own_slot_heap. unfold write.
  rewrite (bind_normal _ _ _ _ _ (get_own_eq w k σ o Hw)). rewrite Hk.
  rewrite (put_own_eq _ _ _ _ _ Hw). eexists. split; [done|]. split; [|done].
  unfold own_slot; simpl. rewrite lookup_insert_eq. simpl. apply lookup_insert_eq.
Qed.

(** Once a data slot, always a data slot: reads return the last written
    value and record nothing. *)
Lemma run_accesses_data w k l : ∀ σ v,
  own_slot σ w k = Some (DataSlot v true true true) →
  own_slot (run_accesses w k l σ) w k = Some (DataSlot (last_written v l) true true true) ∧
  events (run_accesses w k l σ) = events σ.
Proof.
  induction l as [|a l IH]; intros σ v Hk; [done|].
  destruct a as [|v'].
  - cbn [RootParams.run_accesses foldl run_access last_written].
    rewrite (read_data _ _ _ _ _ _ _ Hk). by apply IH.
  - cbn [RootParams.run_accesses foldl run_access last_written].
    destruct (write_data _ _ _ _ _ _ v' Hk) as (σ' & -> & Hk' & Hev).
    simpl. rewrite <- Hev. by apply IH.
Qed.

(** While the accessor is in place, every read runs the trap again. *)
Lemma run_accesses_trapped w k ws ps e c n : ∀ σ,
  own_slot σ w k = Some (AccessorSlot w k ws ps e c) →
  run_accesses w k (replicate n ARead) σ
  = Nat.iter n (add_event (trap_event ws ps k)) σ.
Proof.
  induction n as [|n IH]; intros σ Hk; [done|].
  rewrite Nat.iter_succ_r.
  cbn [replicate RootParams.run_accesses foldl run_access].
  rewrite (read_accessor _ _ _ _ _ _ _ _ _ Hk). simpl. by apply IH.
Qed.

Lemma own_slot_iter_add_event ev n σ w k :
  own_slot (Nat.iter n (add_event ev) σ) w k = own_slot σ w k.
Proof. induction n as [|n IH]; [done|]. simpl. exact IH. Qed.

(** The own properties of a wrapper right after a cache miss. *)
Lemma own_slot_stored P o σ k :
  own_slot (stored P o σ) (next_loc σ) k = own o !! k.
Proof. unfold own_slot; simpl. by rewrite lookup_insert_eq. Qed.

(** ** The resolver, branch by branch *)

Lemma unstable_rootParams_body_dynamic ws sig σ :
  ∃ w σ1,
    createPrerenderParams (rootParams ws) ws (PrerenderStoreModern sig) σ = (Normal w, σ1) ∧
    unstable_rootParams_body (Some ws) (Some (UnitPrerender (PrerenderStoreModern sig))) σ
    = (Normal (rootParams ws),
       add_event (EvTrackDynamicDataInDynamicRender (route ws)
                    (Some (UnitPrerender (PrerenderStoreModern sig)))) σ1) ∧
    events σ1 = events σ ∧ next_loc σ ≤ next_loc σ1 ∧
    (heap_ok σ → w < next_loc σ1).
Proof.
  destruct (CachedParams σ !! params_id (rootParams ws)) as [c|] eqn:Hc.
  - exists c, σ. pose proof (createPrerenderParams_hit _ ws (PrerenderStoreModern sig) _ _ Hc) as E.
    split; [done|]. split; [|split; [done|split; [done|]]].
    + unfold RootParams.unstable_rootParams_body.
      unfold bind at 1. unfold bind at 1. by rewrite E.
    + intros [_ Hok]. by apply Hok in Hc.
  - eexists _, _. pose proof (createPrerenderParams_miss _ ws (PrerenderStoreModern sig) _ Hc) as E.
    split; [done|]. split; [|split; [done|split; [simpl; lia|simpl; lia]]].
    unfold RootParams.unstable_rootParams_body.
    unfold bind at 1. unfold bind at 1. by rewrite E.
Qed.

(** * The claims *)

(** C1, as amended.  Identity stability holds for the builders: whatever
    happened before in the process and in between (builders, resolver
    calls, reads and writes), resolving a [Params] object through any
    builder path and then again through any other path gives the same
    promise, the second resolution leaves the state as it is, and no
    [Params] object is ever the key of two [CachedParams.set] calls. *)
Theorem builders_identity_stable (pre between : list Call) (P : Params)
    (b1 b2 : Builder) :
  let σ0 := run_calls pre empty_state in
  let r1 := run_builder b1 P σ0 in
  let σ1 := run_calls between r1.2 in
  let r2 := run_builder b2 P σ1 in
  ∃ w, r1.1 = Normal w ∧ r2 = (Normal w, σ1) ∧ NoDup (cache_sets r2.2).
Proof.
  intros σ0 r1 σ1 r2.
  destruct (run_builder_cached b1 P σ0) as (w & Hr1 & Hc). fold r1 in Hr1, Hc.
  pose proof (extends_run_calls between r1.2) as (_ & _ & Hsub). fold σ1 in Hsub.
  pose proof (lookup_weaken _ _ _ _ Hc Hsub) as Hc1.
  exists w. split; [done|].
  assert (Hr2 : r2 = (Normal w, σ1)) by (by apply run_builder_hit).
  split; [done|]. rewrite Hr2. simpl.
  assert (Hext : extends empty_state σ1).
  { eapply extends_trans; [apply (extends_run_calls pre)|].
    eapply extends_trans; [apply (preserves_run_builder b1 P)|].
    apply extends_run_calls. }
  destruct Hext as (Hok & _ & _). by destruct (Hok cache_ok_empty).
Qed.

(** C3.  Whenever the body of [unstable_rootParams] returns, a work store
    is active, the returned value is its [rootParams] object and the
    promise of the call is a new promise fulfilled with that very object,
    without own properties; in a dynamicIO prerender it is not the promise
    of [createPrerenderParams] (the locations in use being below the
    allocation counter).  The body throws only without a work store or in
    a PPR or legacy prerender. *)
Theorem resolver_resolves_to_rootParams (wso : option WorkStore)
    (wus : option WorkUnitStore) (σ : State) :
  match unstable_rootParams_body wso wus σ with
  | (Normal v, σb) =>
      ∃ ws, wso = Some ws ∧ v = rootParams ws ∧
        unstable_rootParams wso wus σ
        = (Normal (next_loc σb),
           allocated {| settlement := Fulfilled (rootParams ws); own := ∅;
                        proto := PromisePrototype |} σb) ∧
        ∀ sig, wus = Some (UnitPrerender (PrerenderStoreModern sig)) → heap_ok σ →
          ∃ w, (createPrerenderParams (rootParams ws) ws (PrerenderStoreModern sig) σ).1
               = Normal w ∧ w ≠ next_loc σb
  | (Throw e, σb) =>
      wso = None ∨
      (∃ t, wus = Some (UnitPrerender (PrerenderStorePPR t))) ∨
      wus = Some (UnitPrerender PrerenderStoreLegacy)
  end.
Proof.
  destruct wso as [ws|]; [|by left].
  destruct wus as [[[sig|t|]| | |]|];
    try (simpl; exists ws; split; [done|]; split; [done|]; split; [done|];
         by intros sig [=]).
  - destruct (unstable_rootParams_body_dynamic ws sig σ)
      as (w & σ1 & Hc & Hb & _ & _ & Hlt).
    unfold RootParams.unstable_rootParams, async. rewrite Hb.
    exists ws. split; [done|]. split; [done|]. split; [done|].
    intros sig' [= <-] Hok. exists w. rewrite Hc. split; [done|].
    simpl. specialize (Hlt Hok). lia.
  - right. left. by exists t.
  - right. by right.
Qed.

(** C4.  In a PPR prerender the body of the resolver calls
    [postponeWithTracking] with the route and ['rootParams'], and in a
    legacy prerender [throwToInterruptStaticGeneration] with ['rootParams']
    and the work store; that call is all it does, and the promise of the
    resolver is rejected with what the primitive threw. *)
Theorem eager_dispatch (ws : WorkStore) (σ : State) :
  (∀ t,
     let σ' := add_event (EvPostponeWithTracking (route ws) "rootParams" t) σ in
     unstable_rootParams_body (Some ws) (Some (UnitPrerender (PrerenderStorePPR t))) σ
     = (Throw (PostponeError (route ws) "rootParams"), σ') ∧
     unstable_rootParams (Some ws) (Some (UnitPrerender (PrerenderStorePPR t))) σ
     = (Normal (next_loc σ),
        allocated {| settlement := Rejected (PostponeError (route ws) "rootParams");
                     own := ∅; proto := PromisePrototype |} σ')) ∧
  (let σ' := add_event (EvThrowToInterruptStaticGeneration "rootParams" (route ws)) σ in
   unstable_rootParams_body (Some ws) (Some (UnitPrerender PrerenderStoreLegacy)) σ
   = (Throw (DynamicServerError (route ws) "rootParams"), σ') ∧
   unstable_rootParams (Some ws) (Some (UnitPrerender PrerenderStoreLegacy)) σ
   = (Normal (next_loc σ),
      allocated {| settlement := Rejected (DynamicServerError (route ws) "rootParams");
                   own := ∅; proto := PromisePrototype |} σ')).
Proof. by split. Qed.

(** C5, as amended.  When the work store has no fallback params, or none
    of the keys of its [rootParams] object is one (an empty set of fallback
    params is a case of this): in every unit other than a PPR or legacy
    prerender, the resolver returns a new promise that is already fulfilled
    with the [rootParams] object itself, has no own property and the
    prototype of promises; the one call it records is
    [trackDynamicDataInDynamicRender], no suspend and no abort, and reading
    any key on the promise finds the inherited member and records nothing.
    And the first [createPrerenderParams] of the object, whatever the
    prerender store, returns a new promise whose state is fulfilled with
    the object itself and records no call; reading any key on it returns
    and records nothing, and resolving again returns the same promise. *)
Theorem fully_known_fast_path (ws : WorkStore) (σ : State) :
  match fallbackRouteParams ws with
  | None => True
  | Some fallbackParams => ∀ k, k ∈ Object_keys (rootParams ws) → k ∉ fallbackParams
  end →
  (∀ wus,
     (∀ t, wus ≠ Some (UnitPrerender (PrerenderStorePPR t))) →
     wus ≠ Some (UnitPrerender PrerenderStoreLegacy) →
     ∃ w σr,
       unstable_rootParams (Some ws) wus σ = (Normal w, σr) ∧
       heap σr !! w
       = Some {| settlement := Fulfilled (rootParams ws); own := ∅;
                 proto := PromisePrototype |} ∧
       events σr = EvTrackDynamicDataInDynamicRender (route ws) wus :: events σ ∧
       ∀ k, read w k σr = (Normal (Inherited PromisePrototype), σr)) ∧
  (∀ ps,
     CachedParams σ !! params_id (rootParams ws) = None →
     ∃ σ' o,
       createPrerenderParams (rootParams ws) ws ps σ = (Normal (next_loc σ), σ') ∧
       heap σ' !! next_loc σ = Some o ∧
       settlement o = Fulfilled (rootParams ws) ∧
       events σ' = events σ ∧
       (∀ k, ∃ r, read (next_loc σ) k σ' = (Normal r, σ')) ∧
       createPrerenderParams (rootParams ws) ws ps σ' = (Normal (next_loc σ), σ')).
Proof.
  intros Hfb. split.
  - intros wus Hppr Hleg.
    assert (Hr : ∀ ev σ1,
              let σr := allocated {| settlement := Fulfilled (rootParams ws); own := ∅;
                                     proto := PromisePrototype |} (add_event ev σ1) in
              heap σr !! next_loc σ1
              = Some {| settlement := Fulfilled (rootParams ws); own := ∅;
                        proto := PromisePrototype |} ∧
              ∀ k, read (next_loc σ1) k σr = (Normal (Inherited PromisePrototype), σr)).
    { intros ev σ1 σr.
      assert (Hw : heap σr !! next_loc σ1
                   = Some {| settlement := Fulfilled (rootParams ws); own := ∅;
                             proto := PromisePrototype |})
        by (simpl; apply lookup_insert_eq).
      split; [done|]. intros k. by eapply read_absent. }
    destruct wus as [[[sig|t|]| | |]|]; try (by destruct (Hppr t)); try done;
      try (eexists _, _; split; [done|];
           match goal with
           | |- context [add_event ?ev ?σ1] => destruct (Hr ev σ1) as [Hw Hk]
           end; by split; [|split]).
    destruct (unstable_rootParams_body_dynamic ws sig σ)
      as (w & σ1 & _ & Hb & Hev & _ & _).
    unfold RootParams.unstable_rootParams, async. rewrite Hb.
    eexists _, _. split; [done|].
    match goal with
    | |- context [add_event ?ev ?σ1] => destruct (Hr ev σ1) as [Hw Hk]
    end.
    split; [done|]. split; [simpl; by rewrite Hev|done].
  - intros ps Hmiss.
    assert (Hw : prerender_wrapper wellKnownProperties (rootParams ws) ws ps (next_loc σ)
                 = untracked_wrapper wellKnownProperties (rootParams ws)).
    { unfold prerender_wrapper. destruct (fallbackRouteParams ws) as [fb|]; [|done].
      destruct (hasSomeFallbackParams fb (Object_keys (rootParams ws))) eqn:Hsome;
        [|done].
      apply hasSomeFallbackParams_true in Hsome as (k & Hin & Hk).
      by destruct (Hfb k). }
    eexists _, _. split; [by apply createPrerenderParams_miss|]. rewrite Hw.
    split; [simpl; apply lookup_insert_eq|]. split; [done|]. split; [done|].
    split; [|apply createPrerenderParams_hit; simpl; apply lookup_insert_eq].
    intros k.
    destruct (own_slot (stored (rootParams ws)
                          (untracked_wrapper wellKnownProperties (rootParams ws)) σ)
                (next_loc σ) k) as [s|] eqn:Hk.
    + pose proof Hk as Hs. rewrite own_slot_stored in Hs. simpl in Hs.
      rewrite copied_lookup, lookup_empty in Hs.
      destruct (decide (k ∈ Object_keys (rootParams ws) ∧ (k ∉ wellKnownProperties) ∧
                        k ≠ "__proto__")); [|done].
      injection Hs as <-. eexists. by eapply read_data.
    + rewrite own_slot_stored in Hk. eexists.
      eapply read_absent; [simpl; apply lookup_insert_eq|done|done].
Qed.

(** C6.  Without a work store the body throws the invariant error at once:
    nothing is recorded, cached or allocated before, and the promise of
    the call is rejected with that error.  With a work store the body never
    throws an invariant error. *)
Theorem missing_work_store (wus : option WorkUnitStore) (σ : State) :
  unstable_rootParams_body None wus σ
  = (Throw (InvariantError "Missing workStore in unstable_rootParams"), σ) ∧
  unstable_rootParams None wus σ
  = (Normal (next_loc σ),
     allocated {| settlement :=
                    Rejected (InvariantError "Missing workStore in unstable_rootParams");
                  own := ∅; proto := PromisePrototype |} σ) ∧
  ∀ ws message,
    (unstable_rootParams_body (Some ws) wus σ).1 ≠ Throw (InvariantError message).
Proof.
  split; [done|]. split; [done|]. intros ws message.
  destruct wus as [[[sig|t|]| | |]|]; try done.
  destruct (unstable_rootParams_body_dynamic ws sig σ) as (w & σ1 & _ & Hb & _).
  by rewrite Hb.
Qed.

(** C7, as amended.  On the promise [makeErroringRootParams] builds for a
    [Params] object, reading a key of the object that is a fallback param
    and not a reserved name runs the trap exactly once: one
    [postponeWithTracking] (PPR) or [throwToInterruptStaticGeneration]
    (otherwise) is recorded, with the description of the access to that
    key, and the read throws instead of producing a value.  Reading a key
    that is no fallback param, reserved or not, returns and changes
    nothing. *)
Theorem placeholder_read_traps (P : Params) (fb : gset string) (ws : WorkStore)
    (ps : PrerenderStore) (σ : State) :
  CachedParams σ !! params_id P = None →
  ∃ σ1,
    makeErroringRootParams P fb ws ps σ = (Normal (next_loc σ), σ1) ∧
    (∀ k, k ∈ Object_keys P → k ∈ fb → k ∉ wellKnownProperties →
       read (next_loc σ) k σ1
       = (Throw (trap_exn ws ps k), add_event (trap_event ws ps k) σ1)) ∧
    (∀ k, k ∉ fb → ∃ r, read (next_loc σ) k σ1 = (Normal r, σ1)).
Proof.
  intros Hmiss. eexists. split; [by apply makeErroringRootParams_miss|].
  set (o := erroring_wrapper wellKnownProperties P fb ws ps (next_loc σ)).
  assert (Hk : ∀ k, own_slot (stored P o σ) (next_loc σ) k
                    = if decide (k ∈ Object_keys P ∧ (k ∉ wellKnownProperties) ∧
                                 (k = "__proto__" → k ∈ fb))
                      then Some (expected_slot P fb ws ps (next_loc σ) k) else None).
  { intros k. rewrite own_slot_stored. simpl. rewrite installed_lookup.
    by rewrite lookup_empty. }
  split.
  - intros k Hin Hfb Hwk. specialize (Hk k). rewrite decide_True in Hk by done.
    unfold expected_slot in Hk. rewrite decide_True in Hk by done.
    by eapply read_accessor.
  - intros k Hfb. specialize (Hk k).
    destruct (decide (k ∈ Object_keys P ∧ (k ∉ wellKnownProperties) ∧
                      (k = "__proto__" → k ∈ fb))).
    + unfold expected_slot in Hk. rewrite decide_False in Hk by done.
      eexists. by eapply read_data.
    + eexists. eapply read_absent; [simpl; apply lookup_insert_eq| |done].
      by rewrite own_slot_stored in Hk.
Qed.

(** C8, as amended.  For a key of the [Params] object that is a fallback
    param and not a reserved name, on the promise [makeErroringRootParams]
    builds: the key starts as the accessor; any number of reads leaves the
    accessor in place and runs the trap once per read; the first write
    replaces it by a writable, enumerable value slot holding the written
    value; and from then on, through any reads and writes of the key, it
    stays a value slot holding the last written value, reads return that
    value and nothing more is recorded. *)
Theorem trapped_to_resolved (P : Params) (fb : gset string) (ws : WorkStore)
    (ps : PrerenderStore) (σ : State) (k : string) :
  CachedParams σ !! params_id P = None →
  k ∈ Object_keys P → k ∈ fb → k ∉ wellKnownProperties →
  let w := next_loc σ in
  let σ1 := (makeErroringRootParams P fb ws ps σ).2 in
  own_slot σ1 w k = Some (AccessorSlot w k ws ps true true) ∧
  ∀ n,
    let σn := run_accesses w k (replicate n ARead) σ1 in
    σn = Nat.iter n (add_event (trap_event ws ps k)) σ1 ∧
    own_slot σn w k = Some (AccessorSlot w k ws ps true true) ∧
    ∀ v l,
      let σ2 := (write w k v σn).2 in
      let σ3 := run_accesses w k l σ2 in
      own_slot σ2 w k = Some (DataSlot v true true true) ∧
      events σ2 = events σn ∧
      own_slot σ3 w k = Some (DataSlot (last_written v l) true true true) ∧
      events σ3 = events σ2 ∧
      read w k σ3 = (Normal (Own (last_written v l)), σ3).
Proof.
  intros Hmiss Hin Hfb Hwk w σ1.
  assert (Hk : own_slot σ1 w k = Some (AccessorSlot w k ws ps true true)).
  { unfold σ1. rewrite makeErroringRootParams_miss by done. simpl.
    rewrite own_slot_stored. simpl. rewrite installed_lookup, decide_True by done.
    unfold expected_slot. by rewrite decide_True. }
  split; [done|]. intros n σn.
  assert (Hn : σn = Nat.iter n (add_event (trap_event ws ps k)) σ1)
    by (by eapply run_accesses_trapped).
  assert (Hkn : own_slot σn w k = Some (AccessorSlot w k ws ps true true))
    by (by rewrite Hn, own_slot_iter_add_event).
  split; [done|]. split; [done|]. intros v l σ2 σ3.
  destruct (write_accessor _ _ _ _ _ _ v Hkn) as (σ' & Hw & Hk2 & Hev).
  assert (Hσ2 : σ2 = σ') by (unfold σ2; by rewrite Hw). rewrite Hσ2.
  destruct (run_accesses_data w k l σ' v Hk2) as [Hk3 Hev3].
  unfold σ3. rewrite Hσ2.
  split; [done|]. split; [done|]. split; [done|]. split; [done|].
  by eapply read_data.
Qed.

(** C9, as amended.  With a work store, the body of the resolver records
    the dynamic access exactly when the dispatch on the work unit returns:
    without a work unit, in a dynamicIO prerender and in every unit the
    resolver has no branch for, [trackDynamicDataInDynamicRender] is the
    one call recorded.  In a PPR or legacy prerender the dispatch throws
    and the one call recorded is that of the primitive. *)
Theorem dynamic_access_recorded (ws : WorkStore) (wus : option WorkUnitStore)
    (σ : State) :
  let σ' := (unstable_rootParams_body (Some ws) wus σ).2 in
  match wus with
  | Some (UnitPrerender (PrerenderStorePPR t)) =>
      events σ' = EvPostponeWithTracking (route ws) "rootParams" t :: events σ
  | Some (UnitPrerender PrerenderStoreLegacy) =>
      events σ' = EvThrowToInterruptStaticGeneration "rootParams" (route ws) :: events σ
  | _ =>
      events σ' = EvTrackDynamicDataInDynamicRender (route ws) wus :: events σ
  end.
Proof.
  destruct wus as [[[sig|t|]| | |]|]; try done.
  destruct (unstable_rootParams_body_dynamic ws sig σ) as (w & σ1 & _ & Hb & Hev & _).
  cbv zeta. rewrite Hb. simpl. by rewrite Hev.
Qed.


End Properties.

(** * The claims on a concrete render *)

(** C1, as stated, fails for the resolver: in a dynamicIO prerender of the
    fallback shell, two calls of [unstable_rootParams] in a row return two
    different promises (the [async] function makes a new one per call),
    although the second call finds the [Params] object in [CachedParams]. *)
Lemma resolver_not_identity_stable :
  let call := unstable_rootParams promise_members (Some shell_store)
                (Some (UnitPrerender (PrerenderStoreModern 0))) in
  let r1 := call empty_state in
  let r2 := call r1.2 in
  r1.1 = Normal 1 ∧ r2.1 = Normal 2 ∧ r1.1 ≠ r2.1 ∧
  CachedParams r1.2 !! 0 = Some 0 ∧ cache_sets r2.2 = [0].
Proof.
  cbv zeta. split; [by vm_compute|]. split; [by vm_compute|].
  split; [vm_compute; by intros [=]|]. split; by vm_compute.
Qed.

(** C2 on the code: in a dynamicIO prerender of the fallback shell, whose
    [lang] is a fallback param, [createPrerenderParams] builds and caches the
    hanging promise (location 0), but the promise the resolver returns
    (location 1) is an ordinary promise already fulfilled with [rootParams],
    whether or not the render signal has fired. *)
Lemma dynamic_prerender_resolver_settles :
  let r := unstable_rootParams promise_members (Some shell_store)
             (Some (UnitPrerender (PrerenderStoreModern 0))) empty_state in
  r.1 = Normal 1 ∧
  settlement <$> heap r.2 !! 0 = Some (Hanging 0 "`params`") ∧
  CachedParams r.2 !! 0 = Some 0 ∧
  settlement <$> heap r.2 !! 1 = Some (Fulfilled shell_params) ∧
  heap r.2 !! 1
  = Some {| settlement := Fulfilled shell_params; own := ∅; proto := PromisePrototype |}.
Proof.
  cbv zeta. split; [by vm_compute|]. split; [by vm_compute|].
  split; [by vm_compute|]. split; by vm_compute.
Qed.

Lemma resolver_resolves_to_rootParams_witness :
  let wus := Some (UnitPrerender (PrerenderStoreModern 0)) in
  let r := unstable_rootParams promise_members (Some shell_store) wus empty_state in
  unstable_rootParams_body promise_members (Some shell_store) wus empty_state
  = (Normal shell_params,
     add_event (EvTrackDynamicDataInDynamicRender "/[lang]/[locale]" wus)
       (stored shell_params
          {| settlement := Hanging 0 "`params`"; own := ∅; proto := PromisePrototype |}
          empty_state)) ∧
  r.1 = Normal 1 ∧
  heap r.2 !! 1
  = Some {| settlement := Fulfilled shell_params; own := ∅; proto := PromisePrototype |} ∧
  (createPrerenderParams promise_members shell_params shell_store
     (PrerenderStoreModern 0) empty_state).1 = Normal 0.
Proof.
  cbv zeta.
  pose proof (resolver_resolves_to_rootParams promise_members (Some shell_store)
                (Some (UnitPrerender (PrerenderStoreModern 0))) empty_state) as H.
  assert (Hb : unstable_rootParams_body promise_members (Some shell_store)
                 (Some (UnitPrerender (PrerenderStoreModern 0))) empty_state
               = (Normal shell_params,
                  add_event (EvTrackDynamicDataInDynamicRender "/[lang]/[locale]"
                               (Some (UnitPrerender (PrerenderStoreModern 0))))
                    (stored shell_params
                       {| settlement := Hanging 0 "`params`"; own := ∅;
                          proto := PromisePrototype |}
                       empty_state))) by reflexivity.
  rewrite Hb in H. destruct H as (ws & Hws & _ & Hr & Hne).
  injection Hws as <-. split; [exact Hb|]. rewrite Hr.
  split; [reflexivity|]. split; [reflexivity|].
  destruct (Hne 0 eq_refl heap_ok_empty) as (w & Hw & _). reflexivity.
Defined.

(** C5, as stated, fails in a PPR prerender: without any fallback param
    the resolver still calls [postponeWithTracking], and its promise is
    rejected. *)
Lemma fully_known_ppr_suspends :
  let r := unstable_rootParams promise_members (Some en_us_store)
             (Some (UnitPrerender (PrerenderStorePPR 0))) empty_state in
  fallbackRouteParams en_us_store = Some ∅ ∧
  r.1 = Normal 0 ∧
  heap r.2 !! 0
  = Some {| settlement := Rejected (PostponeError "/[lang]/[locale]" "rootParams");
            own := ∅; proto := PromisePrototype |} ∧
  events r.2 = [EvPostponeWithTracking "/[lang]/[locale]" "rootParams" 0].
Proof.
  cbv zeta. split; [done|]. split; [by vm_compute|]. split; by vm_compute.
Qed.

Lemma fully_known_fast_path_witness :
  (∀ k, k ∈ Object_keys (rootParams en_us_store) → k ∉ (∅ : gset string)) ∧
  (∃ w σr,
     unstable_rootParams promise_members (Some en_us_store) (Some UnitRequest)
       empty_state = (Normal w, σr) ∧
     heap σr !! w
     = Some {| settlement := Fulfilled en_us; own := ∅; proto := PromisePrototype |} ∧
     events σr
     = [EvTrackDynamicDataInDynamicRender "/[lang]/[locale]" (Some UnitRequest)] ∧
     ∀ k, read describe_access w k σr = (Normal (Inherited PromisePrototype), σr)) ∧
  (∃ σ' o,
     createPrerenderParams promise_members en_us en_us_store (PrerenderStoreModern 0)
       empty_state = (Normal 0, σ') ∧
     heap σ' !! 0 = Some o ∧ settlement o = Fulfilled en_us ∧ events σ' = []).
Proof.
  assert (H1 : ∀ k, k ∈ Object_keys (rootParams en_us_store) → k ∉ (∅ : gset string))
    by (intros k _; apply not_elem_of_empty).
  split; [exact H1|].
  destruct (fully_known_fast_path promise_members describe_access en_us_store empty_state H1)
    as [HA HB].
  split.
  - apply (HA (Some UnitRequest)); [intros t; discriminate|discriminate].
  - destruct (HB (PrerenderStoreModern 0) eq_refl) as (σ' & o & Hc & Ho & Hs & He & _).
    exists σ', o. split; [exact Hc|]. split; [exact Ho|]. split; [exact Hs|exact He].
Defined.

(** C7, as stated, fails for a fallback param with a reserved name: in the
    fallback shell of [/[then]], the key [then] gets no accessor, and
    reading it on the promise finds the inherited member and calls
    nothing. *)
Lemma reserved_placeholder_read_no_trap :
  let r := makeErroringRootParams promise_members then_params {[ "then" ]} then_store
             (PrerenderStorePPR 0) empty_state in
  r.1 = Normal 0 ∧
  Object_keys then_params = ["then"] ∧
  fallbackRouteParams then_store = Some {[ "then" ]} ∧
  read describe_access 0 "then" r.2 = (Normal (Inherited PromisePrototype), r.2) ∧
  events r.2 = [].
Proof.
  cbv zeta. split; [by vm_compute|]. split; [done|]. split; [done|].
  split; by vm_compute.
Qed.

Lemma placeholder_read_traps_witness :
  CachedParams empty_state !! params_id shell_params = None ∧
  ∃ σ1,
    makeErroringRootParams promise_members shell_params {[ "lang" ]} shell_store
      (PrerenderStorePPR 0) empty_state = (Normal 0, σ1) ∧
    read describe_access 0 "lang" σ1
    = (Throw (PostponeError "/[lang]/[locale]" "`rootParams.lang`"),
       add_event (EvPostponeWithTracking "/[lang]/[locale]" "`rootParams.lang`" 0) σ1) ∧
    (∃ r, read describe_access 0 "locale" σ1 = (Normal r, σ1)) ∧
    (∃ r, read describe_access 0 "then" σ1 = (Normal r, σ1)).
Proof.
  assert (H0 : CachedParams empty_state !! params_id shell_params = None) by reflexivity.
  assert (H1 : "lang" ∈ Object_keys shell_params) by (vm_compute; set_solver).
  assert (H2 : "lang" ∈ ({[ "lang" ]} : gset string)) by set_solver.
  assert (H3 : "lang" ∉ promise_members) by (vm_compute; set_solver).
  assert (H4 : "locale" ∉ ({[ "lang" ]} : gset string)) by set_solver.
  assert (H5 : "then" ∉ ({[ "lang" ]} : gset string)) by set_solver.
  split; [exact H0|].
  destruct (placeholder_read_traps promise_members describe_access shell_params
              {[ "lang" ]} shell_store (PrerenderStorePPR 0) empty_state H0)
    as (σ1 & Hb & Htrap & Hfree).
  exists σ1. split; [exact Hb|]. split; [exact (Htrap "lang" H1 H2 H3)|].
  split; [exact (Hfree "locale" H4)|exact (Hfree "then" H5)].
Defined.

(** C8, as stated, fails for a fallback param with a reserved name: in the
    fallback shell of [/[then]], the key [then] never has an accessor, and
    reads before any write run no trap. *)
Lemma reserved_placeholder_not_trapped :
  let r := makeErroringRootParams promise_members then_params {[ "then" ]} then_store
             (PrerenderStorePPR 0) empty_state in
  r.1 = Normal 0 ∧
  Object_keys then_params = ["then"] ∧
  fallbackRouteParams then_store = Some {[ "then" ]} ∧
  own_slot r.2 0 "then" = None ∧
  run_accesses describe_access 0 "then" [ARead; ARead] r.2 = r.2 ∧
  events r.2 = [].
Proof.
  cbv zeta. split; [by vm_compute|]. split; [done|]. split; [done|].
  split; [by vm_compute|]. split; by vm_compute.
Qed.

Lemma trapped_to_resolved_witness :
  CachedParams empty_state !! params_id shell_params = None ∧
  "lang" ∈ Object_keys shell_params ∧
  "lang" ∈ ({[ "lang" ]} : gset string) ∧
  ("lang" ∉ promise_members) ∧
  (let σ1 := (makeErroringRootParams promise_members shell_params {[ "lang" ]}
               shell_store (PrerenderStorePPR 0) empty_state).2 in
  let ev := EvPostponeWithTracking "/[lang]/[locale]" "`rootParams.lang`" 0 in
  let σn := run_accesses describe_access 0 "lang" [ARead; ARead] σ1 in
  let σ2 := (write 0 "lang" (VString "fr") σn).2 in
  let σ3 := run_accesses describe_access 0 "lang"
              [ARead; AWrite (VString "de"); ARead] σ2 in
  own_slot σ1 0 "lang" = Some (AccessorSlot 0 "lang" shell_store (PrerenderStorePPR 0) true true) ∧
  σn = add_event ev (add_event ev σ1) ∧
  own_slot σ2 0 "lang" = Some (DataSlot (VString "fr") true true true) ∧
  own_slot σ3 0 "lang" = Some (DataSlot (VString "de") true true true) ∧
  events σ3 = events σn ∧
  read describe_access 0 "lang" σ3 = (Normal (Own (VString "de")), σ3)).
Proof.
  assert (H0 : CachedParams empty_state !! params_id shell_params = None) by reflexivity.
  assert (H1 : "lang" ∈ Object_keys shell_params) by (vm_compute; set_solver).
  assert (H2 : "lang" ∈ ({[ "lang" ]} : gset string)) by set_solver.
  assert (H3 : "lang" ∉ promise_members) by (vm_compute; set_solver).
  split; [exact H0|]. split; [exact H1|]. split; [exact H2|]. split; [exact H3|].
  destruct (trapped_to_resolved promise_members describe_access shell_params
              {[ "lang" ]} shell_store (PrerenderStorePPR 0) empty_state "lang"
              H0 H1 H2 H3) as [Ha Hn].
  destruct (Hn 2) as (Hσn & _ & Hw).
  destruct (Hw (VString "fr") [ARead; AWrite (VString "de"); ARead])
    as (Hk2 & Hev2 & Hk3 & Hev3 & Hr).
  cbv zeta. split; [exact Ha|]. split; [exact Hσn|]. split; [exact Hk2|].
  split; [exact Hk3|]. split; [exact (eq_trans Hev3 Hev2)|]. exact Hr.
Defined.

(** C9, as stated, fails in a PPR prerender: [postponeWithTracking] throws,
    the body ends there and [trackDynamicDataInDynamicRender] is never
    called. *)
Lemma ppr_dispatch_records_no_dynamic_access :
  let r := unstable_rootParams_body promise_members (Some shell_store)
             (Some (UnitPrerender (PrerenderStorePPR 0))) empty_state in
  r.1 = Throw (PostponeError "/[lang]/[locale]" "rootParams") ∧
  events r.2 = [EvPostponeWithTracking "/[lang]/[locale]" "rootParams" 0] ∧
  ∀ route unit, EvTrackDynamicDataInDynamicRender route unit ∉ events r.2.
Proof.
  cbv zeta. split; [done|]. split; [done|].
  intros route unit H. simpl in H. apply list_elem_of_singleton in H. discriminate H.
Qed.



(** * Further properties of the module *)

Section Coverage.

Variable wellKnownProperties : gset string.
Variable describeStringPropertyAccess : string → string → string.

Local Abbreviation makeUntrackedRootParams := (makeUntrackedRootParams wellKnownProperties).
Local Abbreviation makeErroringRootParams := (makeErroringRootParams wellKnownProperties).
Local Abbreviation createPrerenderParams := (createPrerenderParams wellKnownProperties).
Local Abbreviation unstable_rootParams_body := (unstable_rootParams_body wellKnownProperties).
Local Abbreviation unstable_rootParams := (unstable_rootParams wellKnownProperties).
Local Abbreviation run_builder := (run_builder wellKnownProperties).
Local Abbreviation run_call := (run_call wellKnownProperties describeStringPropertyAccess).
Local Abbreviation run_calls := (run_calls wellKnownProperties describeStringPropertyAccess).
Local Abbreviation read := (read describeStringPropertyAccess).
Local Abbreviation run_accesses := (run_accesses describeStringPropertyAccess).
Local Abbreviation built := (built wellKnownProperties).

(** ** What a builder touches *)

(** A builder always returns; it records no call of [postponeWithTracking],
    [throwToInterruptStaticGeneration] or [trackDynamicDataInDynamicRender],
    allocates at most one promise (the hanging path through
    [makeHangingPromise]) and leaves every other location of the heap as it
    is. *)
Theorem builder_footprint (b : Builder) (P : Params) (σ : State) :
  ∃ w σ',
    run_builder b P σ = (Normal w, σ') ∧
    events σ' = events σ ∧
    next_loc σ ≤ next_loc σ' ≤ S (next_loc σ) ∧
    ∀ w', w' ≠ next_loc σ → heap σ' !! w' = heap σ !! w'.
Proof.
  destruct (CachedParams σ !! params_id P) as [c|] eqn:Hc.
  - exists c, σ. split; [by apply run_builder_hit|]. split; [done|].
    split; [lia|done].
  - eexists _, _. split; [by apply run_builder_miss|]. split; [done|].
    split; [simpl; lia|]. intros w' Hw'. simpl. by rewrite lookup_insert_ne.
Qed.

(** A read changes no promise, no cache entry and allocates nothing; it
    calls the render engine at most once, and only through an accessor. *)
Theorem read_footprint (w : loc) (k : string) (σ : State) :
  let σ' := (read w k σ).2 in
  heap σ' = heap σ ∧ CachedParams σ' = CachedParams σ ∧
  cache_sets σ' = cache_sets σ ∧ next_loc σ' = next_loc σ ∧
  (events σ' = events σ ∨
   ∃ p prop ws ps e c,
     own_slot σ w k = Some (AccessorSlot p prop ws ps e c) ∧
     events σ' = trap_event describeStringPropertyAccess ws ps prop :: events σ).
Proof.
  destruct (own_slot σ w k) as [[v wr e c|p prop ws ps e c]|] eqn:Hk.
  - cbv zeta. rewrite (read_data _ _ _ _ _ _ _ _ Hk). simpl.
    do 4 (split; [done|]). by left.
  - cbv zeta. rewrite (read_accessor _ _ _ _ _ _ _ _ _ _ Hk). simpl.
    do 4 (split; [done|]). right. by exists p, prop, ws, ps, e, c.
  - cbv zeta. unfold RootParams.read, bind, get_own, get_proto.
    unfold own_slot in Hk. destruct (heap σ !! w) as [o|] eqn:Hw; simpl in *.
    + rewrite Hk. simpl. rewrite Hw. simpl. do 4 (split; [done|]). by left.
    + do 4 (split; [done|]). by left.
Qed.

(** The promise of [unstable_rootParams] has no own property, whatever the
    work store and the work unit: reading any key on it finds what a
    promise inherits and calls nothing. *)
Theorem resolver_promise_untrapped (wso : option WorkStore)
    (wus : option WorkUnitStore) (σ : State) (k : string) :
  ∃ w σ',
    unstable_rootParams wso wus σ = (Normal w, σ') ∧
    own_slot σ' w k = None ∧
    read w k σ' = (Normal (Inherited PromisePrototype), σ').
Proof.
  unfold RootParams.unstable_rootParams, async.
  destruct (unstable_rootParams_body wso wus σ) as [[v|e] σb];
    (eexists _, _; split; [done|]; split;
     [unfold own_slot; simpl; by rewrite lookup_insert_eq|];
     eapply read_absent; [simpl; apply lookup_insert_eq|done|done]).
Qed.

(** ** The partition decision, key by key *)

(** On the promise the first [createPrerenderParams] of a [Params] object
    builds, a key carries the trap exactly when it is a key of the object,
    not reserved, a fallback param, and the prerender is not a dynamicIO
    one; the trap then captures this promise, this key, the work store and
    the prerender store. *)
Theorem trapped_keys (P : Params) (ws : WorkStore) (ps : PrerenderStore)
    (σ : State) (k : string) :
  CachedParams σ !! params_id P = None →
  let w := next_loc σ in
  let σ' := (createPrerenderParams P ws ps σ).2 in
  ((∃ p prop ws' ps' e c, own_slot σ' w k = Some (AccessorSlot p prop ws' ps' e c)) ↔
   (k ∈ Object_keys P ∧ (k ∉ wellKnownProperties) ∧
    (∃ fb, fallbackRouteParams ws = Some fb ∧ k ∈ fb) ∧
    ∀ sig, ps ≠ PrerenderStoreModern sig)) ∧
  ((∃ p prop ws' ps' e c, own_slot σ' w k = Some (AccessorSlot p prop ws' ps' e c)) →
   own_slot σ' w k = Some (AccessorSlot w k ws ps true true)).
Proof.
  intros Hmiss w σ'. unfold σ'.
  rewrite createPrerenderParams_miss by done. simpl.
  rewrite own_slot_stored. fold w. unfold prerender_wrapper.
  assert (Hcopied : ∀ p prop ws' ps' e c,
            own (untracked_wrapper wellKnownProperties P) !! k
            ≠ Some (AccessorSlot p prop ws' ps' e c)).
  { intros. simpl. rewrite copied_lookup. by case_decide. }
  destruct (fallbackRouteParams ws) as [fb|] eqn:Hfb.
  2:{ split.
      - split; [intros (?&?&?&?&?&?&H); by apply Hcopied in H|].
        by intros (_ & _ & (fb & [=] & _) & _).
      - intros (?&?&?&?&?&?&H). by apply Hcopied in H. }
  destruct (hasSomeFallbackParams fb (Object_keys P)) eqn:Hsome.
  2:{ split.
      - split; [intros (?&?&?&?&?&?&H); by apply Hcopied in H|].
        intros (Hin & _ & (fb' & [= <-] & Hk) & _).
        assert (hasSomeFallbackParams fb (Object_keys P) = true)
          by (apply hasSomeFallbackParams_true; eauto).
        congruence.
      - intros (?&?&?&?&?&?&H). by apply Hcopied in H. }
  assert (Hacc : ∀ ps0, k ∈ Object_keys P → k ∉ wellKnownProperties → k ∈ fb →
            own (erroring_wrapper wellKnownProperties P fb ws ps0 w) !! k
            = Some (AccessorSlot w k ws ps0 true true)).
  { intros ps0 Hin Hwk Hk. simpl. rewrite installed_lookup, decide_True by done.
    unfold expected_slot. by rewrite decide_True. }
  assert (Hnot : ∀ ps0 p prop ws' ps' e c,
            own (erroring_wrapper wellKnownProperties P fb ws ps0 w) !! k
            = Some (AccessorSlot p prop ws' ps' e c) →
            k ∈ Object_keys P ∧ (k ∉ wellKnownProperties) ∧ k ∈ fb).
  { intros ps0 p prop ws' ps' e c. simpl. rewrite installed_lookup, lookup_empty.
    case_decide as Hd; [|done]. destruct Hd as (Hin & Hwk & _).
    unfold expected_slot. case_decide; [|done]. done. }
  destruct ps as [sig|t|].
  - simpl. rewrite lookup_empty. split; [|by intros (?&?&?&?&?&?&?)].
    split; [by intros (?&?&?&?&?&?&?)|]. intros (_ & _ & _ & Hno). by destruct (Hno sig).
  - split.
    + split.
      * intros (?&?&?&?&?&?&H). apply Hnot in H as (Hin & Hwk & Hk).
        split; [done|]. split; [done|]. split; [by eauto|done].
      * intros (Hin & Hwk & (fb' & [= <-] & Hk) & _).
        rewrite Hacc by done. by eauto 10.
    + intros (?&?&?&?&?&?&H). apply Hnot in H as (Hin & Hwk & Hk). by apply Hacc.
  - split.
    + split.
      * intros (?&?&?&?&?&?&H). apply Hnot in H as (Hin & Hwk & Hk).
        split; [done|]. split; [done|]. split; [by eauto|done].
      * intros (Hin & Hwk & (fb' & [= <-] & Hk) & _).
        rewrite Hacc by done. by eauto 10.
    + intros (?&?&?&?&?&?&H). apply Hnot in H as (Hin & Hwk & Hk). by apply Hacc.
Qed.

(** In a dynamicIO prerender, when some key of the [Params] object is a
    fallback param, the first [createPrerenderParams] of the object builds
    the promise of [makeHangingPromise] for the render signal, labelled
    [`params`], caches it and puts no property on it: every key, known or
    not, reads as what a promise inherits.  No suspend, abort or
    dynamic-access call is recorded. *)
Theorem hanging_path (P : Params) (ws : WorkStore) (fb : gset string)
    (sig : Signal) (σ : State) (k0 : string) :
  fallbackRouteParams ws = Some fb → k0 ∈ Object_keys P → k0 ∈ fb →
  CachedParams σ !! params_id P = None →
  let σ' := stored P {| settlement := Hanging sig "`params`"; own := ∅;
                        proto := PromisePrototype |} σ in
  createPrerenderParams P ws (PrerenderStoreModern sig) σ = (Normal (next_loc σ), σ') ∧
  events σ' = events σ ∧
  ∀ k, read (next_loc σ) k σ' = (Normal (Inherited PromisePrototype), σ').
Proof.
  intros Hfb Hin Hk0 Hmiss σ'.
  assert (Hsome : hasSomeFallbackParams fb (Object_keys P) = true)
    by (apply hasSomeFallbackParams_true; eauto).
  split.
  { rewrite createPrerenderParams_miss by done. unfold prerender_wrapper.
    by rewrite Hfb, Hsome. }
  split; [done|].
  intros k. eapply read_absent; [simpl; apply lookup_insert_eq|done|done].
Qed.

(** The promise [makeErroringRootParams] builds is already fulfilled with
    the [Params] object itself, fallback params included: whatever the
    fallback params and the prerender store, its state holds the object
    and building it records no call. *)
Theorem erroring_wrapper_fulfilled (P : Params) (fb : gset string) (ws : WorkStore)
    (ps : PrerenderStore) (σ : State) :
  CachedParams σ !! params_id P = None →
  ∃ σ' o,
    makeErroringRootParams P fb ws ps σ = (Normal (next_loc σ), σ') ∧
    heap σ' !! next_loc σ = Some o ∧
    settlement o = Fulfilled P ∧
    events σ' = events σ.
Proof.
  intros Hmiss. eexists _, _. split; [by apply makeErroringRootParams_miss|].
  split; [simpl; apply lookup_insert_eq|]. by split.
Qed.

(** A [Params] object without keys is never partitioned: whatever the
    fallback params and the prerender store (a dynamicIO prerender
    included), its first [createPrerenderParams] builds a promise fulfilled
    with the object, without own properties. *)
Theorem no_keys_fully_known (P : Params) (ws : WorkStore) (ps : PrerenderStore)
    (σ : State) :
  Object_keys P = [] →
  CachedParams σ !! params_id P = None →
  createPrerenderParams P ws ps σ
  = (Normal (next_loc σ),
     stored P {| settlement := Fulfilled P; own := ∅; proto := PromisePrototype |} σ).
Proof.
  intros Hkeys Hmiss. rewrite createPrerenderParams_miss by done.
  unfold prerender_wrapper, untracked_wrapper. rewrite Hkeys. simpl.
  by destruct (fallbackRouteParams ws).
Qed.

(** ** One cache entry per [Params] object *)

(** The cache is keyed by the object, not by its content: building the
    promise of a [Params] object leaves the entry and the promise of every
    other object as they are, and the new promise is none of the cached
    ones, also when the two objects hold the same entries. *)
Theorem cache_keyed_by_identity (b : Builder) (P1 P2 : Params) (σ : State)
    (w1 : loc) :
  heap_ok σ →
  params_id P1 ≠ params_id P2 →
  CachedParams σ !! params_id P1 = Some w1 →
  CachedParams σ !! params_id P2 = None →
  ∃ w2 σ',
    run_builder b P2 σ = (Normal w2, σ') ∧
    w2 ≠ w1 ∧
    CachedParams σ' !! params_id P1 = Some w1 ∧
    CachedParams σ' !! params_id P2 = Some w2 ∧
    heap σ' !! w1 = heap σ !! w1.
Proof.
  intros [_ Hok] Hne H1 H2. apply Hok in H1 as Hlt.
  eexists _, _. split; [by apply run_builder_miss|].
  split; [lia|]. simpl. split; [by rewrite lookup_insert_ne|].
  split; [apply lookup_insert_eq|]. rewrite lookup_insert_ne; [done|lia].
Qed.

(** Outside a dynamicIO prerender the resolver never touches the cache.  The
    only entry a call of the resolver can change is that of the
    [rootParams] of the work store, in a dynamicIO prerender, from absent
    to present. *)
Theorem resolver_cache_footprint (wso : option WorkStore)
    (wus : option WorkUnitStore) (σ : State) (id : loc) :
  let σ' := (unstable_rootParams wso wus σ).2 in
  CachedParams σ' !! id ≠ CachedParams σ !! id →
  ∃ ws sig,
    wso = Some ws ∧ wus = Some (UnitPrerender (PrerenderStoreModern sig)) ∧
    id = params_id (rootParams ws) ∧
    CachedParams σ !! id = None ∧ is_Some (CachedParams σ' !! id).
Proof.
  intros σ'. unfold σ', RootParams.unstable_rootParams, async.
  destruct wso as [ws|]; [|intros Hne; exfalso; by apply Hne].
  destruct wus as [[[sig|t|]| | |]|]; try (intros Hne; exfalso; by apply Hne).
  set (ev := EvTrackDynamicDataInDynamicRender (route ws)
               (Some (UnitPrerender (PrerenderStoreModern sig)))).
  destruct (CachedParams σ !! params_id (rootParams ws)) as [c|] eqn:Hc.
  - assert (E : unstable_rootParams_body (Some ws)
                  (Some (UnitPrerender (PrerenderStoreModern sig))) σ
                = (Normal (rootParams ws), add_event ev σ)).
    { unfold RootParams.unstable_rootParams_body. unfold bind at 1. unfold bind at 1.
      by rewrite (createPrerenderParams_hit _ _ ws (PrerenderStoreModern sig) _ _ Hc). }
    rewrite E. intros Hne. exfalso. by apply Hne.
  - assert (E : unstable_rootParams_body (Some ws)
                  (Some (UnitPrerender (PrerenderStoreModern sig))) σ
                = (Normal (rootParams ws),
                   add_event ev
                     (stored (rootParams ws)
                        (prerender_wrapper wellKnownProperties (rootParams ws) ws
                           (PrerenderStoreModern sig) (next_loc σ)) σ))).
    { unfold RootParams.unstable_rootParams_body. unfold bind at 1. unfold bind at 1.
      by rewrite (createPrerenderParams_miss _ _ ws (PrerenderStoreModern sig) _ Hc). }
    rewrite E. simpl. rewrite lookup_insert.
    case_decide as Hid; [|intros Hne; exfalso; by apply Hne].
    intros _. exists ws, sig. subst id. by rewrite Hc.
Qed.

(** ** Promises stay settled as they are *)

Lemma steady_refl σ : steady σ σ.
Proof. split; [apply extends_refl|]. intros _ w o Hw. by exists o. Qed.

Lemma steady_trans σ1 σ2 σ3 : steady σ1 σ2 → steady σ2 σ3 → steady σ1 σ3.
Proof.
  intros [E1 S1] [E2 S2]. split; [by eapply extends_trans|].
  intros Hok w o Hw. destruct (S1 Hok w o Hw) as (o2 & Hw2 & Hs2).
  destruct E1 as (_ & Hok2 & _).
  destruct (S2 (Hok2 Hok) w o2 Hw2) as (o3 & Hw3 & Hs3).
  exists o3. split; [done|]. by rewrite Hs3.
Qed.

Lemma steadily_ret {A} (a : A) : steadily (ret a).
Proof. intros σ. apply steady_refl. Qed.

Lemma steadily_throw {A} e : steadily (throw (A := A) e).
Proof. intros σ. apply steady_refl. Qed.

Lemma steadily_bind {A B} (m : M A) (k : A → M B) :
  steadily m → (∀ a, steadily (k a)) → steadily (bind m k).
Proof.
  intros Hm Hk σ. unfold bind. specialize (Hm σ).
  destruct (m σ) as [[a|e] σ']; simpl in *; [|done].
  eapply steady_trans; [done|apply Hk].
Qed.

Lemma steadily_log_event e : steadily (log_event e).
Proof.
  intros σ. split; [apply preserves_log_event|]. intros _ w o Hw. by exists o.
Qed.

Lemma steadily_get_own w k : steadily (get_own w k).
Proof. intros σ. unfold get_own. destruct (heap σ !! w); apply steady_refl. Qed.

Lemma steadily_put_own w k s : steadily (put_own w k s).
Proof.
  intros σ. split; [apply preserves_put_own|]. intros _ w' o' Hw'.
  unfold put_own. destruct (heap σ !! w) as [o|] eqn:Hw; [|by exists o'].
  simpl. rewrite lookup_insert. case_decide as Hww; [subst w'|by exists o'].
  eexists. split; [done|]. simpl. congruence.
Qed.

Lemma steadily_get_proto w : steadily (get_proto w).
Proof. intros σ. unfold get_proto. destruct (heap σ !! w); apply steady_refl. Qed.

Lemma steadily_set_proto w p : steadily (set_proto w p).
Proof.
  intros σ. split; [apply preserves_set_proto|]. intros _ w' o' Hw'.
  unfold set_proto. destruct (heap σ !! w) as [o|] eqn:Hw; [|by exists o'].
  simpl. rewrite lookup_insert. case_decide as Hww; [subst w'|by exists o'].
  eexists. split; [done|]. simpl. congruence.
Qed.

Lemma steadily_alloc o : steadily (alloc o).
Proof.
  intros σ. split; [apply preserves_alloc|]. intros [Hok _] w' o' Hw'.
  exists o'. split; [|done]. simpl. apply Hok in Hw' as Hlt.
  rewrite lookup_insert_ne; [done|lia].
Qed.

Lemma steady_stored P o σ :
  CachedParams σ !! params_id P = None → steady σ (stored P o σ).
Proof.
  intros Hmiss. split; [by apply extends_stored|]. intros [Hok _] w' o' Hw'.
  exists o'. split; [|done]. simpl. apply Hok in Hw' as Hlt.
  rewrite lookup_insert_ne; [done|lia].
Qed.

Create HintDb steadily.
#[local] Hint Resolve steadily_ret steadily_throw steadily_bind steadily_log_event
  steadily_get_own steadily_put_own steadily_get_proto steadily_set_proto
  steadily_alloc : steadily.

Lemma steadily_defineProperty_value w k v : steadily (defineProperty_value w k v).
Proof.
  unfold defineProperty_value. apply steadily_bind; [auto with steadily|].
  intros [s|]; [|auto with steadily].
  destruct (slot_configurable s); [auto with steadily|].
  destruct s as [? [] [] []|]; auto with steadily.
Qed.

Lemma steadily_read w k : steadily (read w k).
Proof.
  unfold RootParams.read. apply steadily_bind; [auto with steadily|].
  intros [[]|]; [auto with steadily| |auto with steadily].
  apply steadily_bind; [|auto with steadily].
  unfold accessor_get. apply steadily_bind; [|auto with steadily].
  destruct prerenderStore; unfold postponeWithTracking,
    throwToInterruptStaticGeneration; auto with steadily.
Qed.

Lemma steadily_write w k v : steadily (write w k v).
Proof.
  unfold write. apply steadily_bind; [auto with steadily|].
  intros [[? []|]|]; auto using steadily_defineProperty_value with steadily.
  case_decide; [|auto with steadily]. destruct v; auto with steadily.
Qed.

Lemma steadily_run_builder b P : steadily (run_builder b P).
Proof.
  intros σ. destruct (CachedParams σ !! params_id P) as [c|] eqn:Hc.
  - rewrite (run_builder_hit _ _ _ _ _ Hc). apply steady_refl.
  - rewrite (run_builder_miss _ _ _ _ Hc). by apply steady_stored.
Qed.

Lemma steadily_async body : steadily body → steadily (async body).
Proof.
  intros Hb σ. unfold async. specialize (Hb σ).
  destruct (body σ) as [[v|e] σ']; simpl in *;
    (eapply steady_trans; [done|apply steadily_alloc]).
Qed.

Lemma steadily_unstable_rootParams_body wso wus :
  steadily (unstable_rootParams_body wso wus).
Proof.
  unfold RootParams.unstable_rootParams_body.
  destruct wso as [ws|]; [|auto with steadily].
  apply steadily_bind; [|intros _; unfold trackDynamicDataInDynamicRender;
                         auto with steadily].
  destruct wus as [[[sig|t|]| | |]|];
    unfold postponeWithTracking, throwToInterruptStaticGeneration;
    auto with steadily.
  apply steadily_bind; [|auto with steadily].
  apply (steadily_run_builder (ViaPrerender ws (PrerenderStoreModern sig))).
Qed.

Lemma steady_run_call c σ : steady σ (run_call c σ).
Proof.
  destruct c; simpl.
  - apply steadily_run_builder.
  - apply steadily_async, steadily_unstable_rootParams_body.
  - apply steadily_read.
  - apply steadily_write.
Qed.

Lemma steady_run_calls cs : ∀ σ, steady σ (run_calls cs σ).
Proof.
  induction cs as [|c cs IH]; intros σ; [apply steady_refl|].
  eapply steady_trans; [apply (steady_run_call c)|apply IH].
Qed.

(** Nothing the module or the application does changes how a promise is
    settled: through any builder calls, resolver calls, reads and writes, a
    hanging promise stays hanging on the same signal and a fulfilled one
    stays fulfilled with the same [Params] object. *)
Theorem settlement_stable (pre cs : list Call) (w : loc) (o : PromiseObj) :
  let σ := run_calls pre empty_state in
  heap σ !! w = Some o →
  ∃ o', heap (run_calls cs σ) !! w = Some o' ∧ settlement o' = settlement o.
Proof.
  intros σ Hw.
  destruct (steady_run_calls pre empty_state) as [(_ & Hok & _) _].
  destruct (steady_run_calls cs σ) as [_ Hst].
  exact (Hst (Hok heap_ok_empty) w o Hw).
Qed.

(** ** The traps are per key *)

Lemma read_heap w k σ : heap (read w k σ).2 = heap σ.
Proof.
  unfold RootParams.read, bind, get_own.
  destruct (heap σ !! w) as [o|] eqn:Hw; [|done].
  destruct (own o !! k) as [[|? ? ? []]|]; try done.
  unfold get_proto. by rewrite Hw.
Qed.

Lemma write_frame w k v σ o :
  heap σ !! w = Some o → self_targeted w o →
  ∃ o', heap (write w k v σ).2 !! w = Some o' ∧ self_targeted w o' ∧
        ∀ k', k' ≠ k → own o' !! k' = own o !! k'.
Proof.
  intros Hw Hst.
  assert (Hput : ∀ s,
            (∀ p prop ws ps e c, s ≠ AccessorSlot p prop ws ps e c) →
            ∃ o', heap (put_own w k s σ).2 !! w = Some o' ∧ self_targeted w o' ∧
                  ∀ k', k' ≠ k → own o' !! k' = own o !! k').
  { intros s Hs. rewrite (put_own_eq _ _ _ _ _ Hw). simpl. eexists.
    split; [apply lookup_insert_eq|]. split.
    - intros k0 p prop ws ps e c. simpl. rewrite lookup_insert.
      case_decide; [intros [= ->]; by destruct (Hs p prop ws ps e c)|apply Hst].
    - intros k' Hk'. simpl. by rewrite lookup_insert_ne. }
  assert (Hsame : ∃ o', heap σ !! w = Some o' ∧ self_targeted w o' ∧
                        ∀ k', k' ≠ k → own o' !! k' = own o !! k')
    by (by exists o).
  unfold write. rewrite (bind_normal _ _ _ _ _ (get_own_eq w k σ o Hw)).
  destruct (own o !! k) as [[v0 [] e c|p prop ws ps e c]|] eqn:Hk;
    [by apply Hput|done| |].
  - destruct (Hst _ _ _ _ _ _ _ Hk) as [-> ->].
    unfold accessor_set, defineProperty_value.
    rewrite (bind_normal _ _ _ _ _ (get_own_eq w k σ o Hw)). rewrite Hk. simpl.
    destruct c; [by apply Hput|done].
  - case_decide; [|by apply Hput]. destruct v; try done.
    rewrite (set_proto_eq _ _ _ _ Hw). simpl. eexists.
    split; [apply lookup_insert_eq|]. by split.
Qed.

Lemma run_accesses_frame w k l : ∀ σ o,
  heap σ !! w = Some o → self_targeted w o →
  ∃ o', heap (run_accesses w k l σ) !! w = Some o' ∧
        ∀ k', k' ≠ k → own o' !! k' = own o !! k'.
Proof.
  induction l as [|a l IH]; intros σ o Hw Hst; [by exists o|].
  destruct a as [|v]; cbn [RootParams.run_accesses foldl run_access].
  - apply IH; [by rewrite read_heap|done].
  - destruct (write_frame w k v σ o Hw Hst) as (o1 & Hw1 & Hst1 & Hfr1).
    destruct (IH _ o1 Hw1 Hst1) as (o2 & Hw2 & Hfr2).
    exists o2. split; [done|]. intros k' Hk'. by rewrite Hfr2, Hfr1.
Qed.

Lemma built_self_targeted b P w : self_targeted w (built b P w).
Proof.
  assert (Hu : self_targeted w (untracked_wrapper wellKnownProperties P)).
  { intros k p prop ws ps e c. simpl. rewrite copied_lookup. by case_decide. }
  assert (He : ∀ fb ws ps,
            self_targeted w (erroring_wrapper wellKnownProperties P fb ws ps w)).
  { intros fb ws ps k p prop ws' ps' e c. simpl. rewrite installed_lookup.
    case_decide; [|by rewrite lookup_empty]. unfold expected_slot.
    case_decide; [|done]. by intros [= <- <- _ _ _ _]. }
  destruct b as [|fb ws ps|ws ps]; simpl; [done|done|].
  unfold prerender_wrapper. destruct (fallbackRouteParams ws) as [fb|]; [|done].
  destruct (hasSomeFallbackParams fb (Object_keys P)); [|done].
  destruct ps; [|done|done]. intros k p prop ws' ps' e c. simpl.
  by rewrite lookup_empty.
Qed.

(** On the promise a builder builds, reads and writes of one key never
    change the slot of another key: resolving one fallback param by a write
    leaves every other fallback param trapped. *)
Theorem keys_independent (b : Builder) (P : Params) (σ : State)
    (k k' : string) (l : list Access) :
  CachedParams σ !! params_id P = None →
  k' ≠ k →
  let w := next_loc σ in
  let σ1 := (run_builder b P σ).2 in
  own_slot (run_accesses w k l σ1) w k' = own_slot σ1 w k'.
Proof.
  intros Hmiss Hne w σ1. unfold σ1. rewrite run_builder_miss by done. simpl.
  destruct (run_accesses_frame w k l (stored P (built b P w) σ) (built b P w))
    as (o' & Hw' & Hfr).
  { simpl. apply lookup_insert_eq. }
  { apply built_self_targeted. }
  rewrite own_slot_stored. unfold own_slot. fold w. rewrite Hw'. simpl.
  by apply Hfr.
Qed.

(** A key resolved by a write stays resolved when the [Params] object is
    resolved again: the builders return the cached promise as it is and do
    not put the trap back. *)
Theorem write_survives_resolution (P : Params) (fb : gset string) (ws : WorkStore)
    (ps : PrerenderStore) (σ : State) (k : string) (v : Value) (b : Builder) :
  CachedParams σ !! params_id P = None →
  k ∈ Object_keys P → k ∈ fb → k ∉ wellKnownProperties →
  let w := next_loc σ in
  let σ1 := (makeErroringRootParams P fb ws ps σ).2 in
  let σ2 := (write w k v σ1).2 in
  run_builder b P σ2 = (Normal w, σ2) ∧
  own_slot σ2 w k = Some (DataSlot v true true true).
Proof.
  intros Hmiss Hin Hfb Hwk w σ1 σ2.
  assert (Hk : own_slot σ1 w k = Some (AccessorSlot w k ws ps true true)).
  { unfold σ1. rewrite makeErroringRootParams_miss by done. simpl.
    rewrite own_slot_stored. simpl. rewrite installed_lookup, decide_True by done.
    unfold expected_slot. by rewrite decide_True. }
  assert (Hc : CachedParams σ1 !! params_id P = Some w).
  { unfold σ1. rewrite makeErroringRootParams_miss by done. simpl.
    apply lookup_insert_eq. }
  destruct (write_accessor _ _ _ _ _ _ v Hk) as (σ' & Hw & Hk2 & _).
  destruct (preserves_write w k v σ1) as (_ & _ & Hsub). fold σ2 in Hsub.
  split; [|unfold σ2; by rewrite Hw].
  apply run_builder_hit. by eapply lookup_weaken.
Qed.

(** ** The two builders compared *)

(** [makeErroringRootParams] differs from [makeUntrackedRootParams] only
    through the fallback params that are keys of the object and not
    reserved: when there is none, the two builders do the same in every
    state. *)
Theorem erroring_without_traps_is_untracked (P : Params) (fb : gset string)
    (ws : WorkStore) (ps : PrerenderStore) (σ : State) :
  (∀ k, k ∈ Object_keys P → k ∈ fb → k ∈ wellKnownProperties) →
  makeErroringRootParams P fb ws ps σ = makeUntrackedRootParams P σ.
Proof.
  intros Hno. destruct (CachedParams σ !! params_id P) as [c|] eqn:Hc.
  { by rewrite (makeErroringRootParams_hit _ _ _ _ _ _ c),
               (makeUntrackedRootParams_hit _ _ _ c). }
  rewrite makeErroringRootParams_miss, makeUntrackedRootParams_miss by done.
  do 2 f_equal. unfold erroring_wrapper, untracked_wrapper. f_equal.
  - apply map_eq. intros k. rewrite installed_lookup, copied_lookup.
    destruct (decide (k ∈ Object_keys P ∧ (k ∉ wellKnownProperties) ∧
                      (k = "__proto__" → k ∈ fb))) as [(Hin & Hwk & Hp)|Hno1];
      destruct (decide (k ∈ Object_keys P ∧ (k ∉ wellKnownProperties) ∧
                        k ≠ "__proto__")) as [(Hin' & Hwk' & Hne)|Hno2].
    + unfold expected_slot. destruct (decide (k ∈ fb)) as [Hk|]; [|done].
      by destruct (Hwk (Hno k Hin Hk)).
    + destruct (decide (k = "__proto__")) as [Heq|Hne]; [|by destruct Hno2].
      by destruct (Hwk (Hno k Hin (Hp Heq))).
    + by destruct Hno1.
    + done.
  - rewrite !reparented_eq.
    destruct (decide ("__proto__" ∈ Object_keys P ∧ ("__proto__" ∉ wellKnownProperties) ∧
                      "__proto__" ∉ fb)) as [(Hin & Hwk & Hfb)|Hno1].
    + rewrite decide_True; [done|]. split; [done|]. split; [done|].
      apply not_elem_of_empty.
    + rewrite decide_False; [done|]. intros (Hin & Hwk & _). apply Hno1.
      split; [done|]. split; [done|]. intros Hfb. by apply Hwk, Hno.
Qed.

(** ** What the cache holds *)

Lemma read_cache w k σ : CachedParams (read w k σ).2 = CachedParams σ.
Proof.
  unfold RootParams.read, bind, get_own.
  destruct (heap σ !! w) as [o|] eqn:Hw; [|done].
  destruct (own o !! k) as [[|? ? ? []]|]; try done.
  unfold get_proto. by rewrite Hw.
Qed.

Lemma put_own_cache w k s σ : CachedParams (put_own w k s σ).2 = CachedParams σ.
Proof. unfold put_own. by destruct (heap σ !! w). Qed.

Lemma defineProperty_value_cache w k v σ :
  CachedParams (defineProperty_value w k v σ).2 = CachedParams σ.
Proof.
  unfold defineProperty_value, bind, get_own.
  destruct (heap σ !! w) as [o|]; [|done].
  destruct (own o !! k) as [s|]; [|apply put_own_cache].
  destruct (slot_configurable s); [apply put_own_cache|].
  destruct s as [? [] [] []|]; try done; apply put_own_cache.
Qed.

Lemma write_cache w k v σ : CachedParams (write w k v σ).2 = CachedParams σ.
Proof.
  unfold write, bind, get_own. destruct (heap σ !! w) as [o|]; [|done].
  destruct (own o !! k) as [[? [] ? ?|p prop ? ? ? ?]|].
  - apply put_own_cache.
  - done.
  - apply defineProperty_value_cache.
  - case_decide; [|apply put_own_cache]. destruct v; try done.
    unfold set_proto. by destruct (heap σ !! w).
Qed.

Lemma cache_sound_steady σ σ' :
  steady σ σ' → heap_ok σ → CachedParams σ' = CachedParams σ →
  cache_sound σ → cache_sound σ'.
Proof.
  intros [_ Hst] Hok Hc Hs id w. rewrite Hc. intros Hw.
  destruct (Hs id w Hw) as (o & Ho & Hset).
  destruct (Hst Hok w o Ho) as (o' & Ho' & Heq). exists o'. by rewrite Heq.
Qed.

Lemma cache_sound_stored P o σ :
  heap_ok σ → settles_to (params_id P) (settlement o) →
  cache_sound σ → cache_sound (stored P o σ).
Proof.
  intros [_ Hok] Hset Hs id w. simpl. rewrite lookup_insert.
  case_decide as Hid; [intros [= <-]; subst id|].
  - exists o. by rewrite lookup_insert_eq.
  - intros Hw. destruct (Hs id w Hw) as (o' & Ho' & Hset'). exists o'.
    split; [|done]. apply Hok in Hw. rewrite lookup_insert_ne; [done|lia].
Qed.

Lemma built_settles_to b P w : settles_to (params_id P) (settlement (built b P w)).
Proof.
  destruct b as [|fb ws ps|ws ps]; simpl; [done|done|].
  unfold prerender_wrapper. destruct (fallbackRouteParams ws) as [fb|]; [|done].
  destruct (hasSomeFallbackParams fb (Object_keys P)); [|done]. by destruct ps.
Qed.

Lemma cache_sound_run_builder b P σ :
  heap_ok σ → cache_sound σ → cache_sound (run_builder b P σ).2.
Proof.
  intros Hok Hs. destruct (CachedParams σ !! params_id P) as [c|] eqn:Hc.
  - by rewrite (run_builder_hit _ _ _ _ _ Hc).
  - rewrite (run_builder_miss _ _ _ _ Hc). simpl.
    apply cache_sound_stored; [done|apply built_settles_to|done].
Qed.

Lemma cache_sound_run_call c σ :
  heap_ok σ → cache_sound σ → cache_sound (run_call c σ).
Proof.
  intros Hok Hs. destruct c as [b P|wso wus|w k|w k v]; simpl.
  - by apply cache_sound_run_builder.
  - assert (Hb : heap_ok (unstable_rootParams_body wso wus σ).2 ∧
                 cache_sound (unstable_rootParams_body wso wus σ).2).
    { split; [by apply (preserves_unstable_rootParams_body _ wso wus σ)|].
      destruct wso as [ws|]; [|done].
      destruct wus as [[[sig|t|]| | |]|]; try done.
      destruct (unstable_rootParams_body_dynamic wellKnownProperties ws sig σ)
        as (w & σ1 & Hc & -> & _).
      change σ1 with (Normal w, σ1).2. rewrite <- Hc.
      by apply (cache_sound_run_builder (ViaPrerender ws (PrerenderStoreModern sig))). }
    destruct Hb as [Hokb Hsb]. unfold RootParams.unstable_rootParams, async.
    destruct (unstable_rootParams_body wso wus σ) as [[v|e] σb]; simpl in *;
      (eapply (cache_sound_steady σb); [apply steadily_alloc|done|done|done]).
  - eapply cache_sound_steady; [apply steadily_read|done|apply read_cache|done].
  - eapply cache_sound_steady; [apply steadily_write|done|apply write_cache|done].
Qed.

Lemma cache_sound_run_calls cs : ∀ σ,
  heap_ok σ → cache_sound σ → cache_sound (run_calls cs σ).
Proof.
  induction cs as [|c cs IH]; intros σ Hok Hs; [done|].
  apply IH; [by apply (extends_run_call _ _ c σ)|by apply cache_sound_run_call].
Qed.

(** Whatever was called before, an entry of [CachedParams] is a promise of
    the heap that hangs or is fulfilled with the very [Params] object it is
    cached under; no rejected promise is ever cached. *)
Theorem cache_entries_sound (cs : list Call) (id w : loc) :
  let σ := run_calls cs empty_state in
  CachedParams σ !! id = Some w →
  ∃ o, heap σ !! w = Some o ∧
       (∀ P, settlement o = Fulfilled P → params_id P = id) ∧
       (∀ e, settlement o ≠ Rejected e).
Proof.
  intros σ Hw.
  assert (Hs : cache_sound σ).
  { apply cache_sound_run_calls; [apply heap_ok_empty|].
    intros id' w'. simpl. by rewrite lookup_empty. }
  destruct (Hs id w Hw) as (o & Ho & Hset). exists o. split; [done|].
  destruct (settlement o); simpl in Hset; split; try done; by intros ? [= <-].
Qed.

End Coverage.

(** * The further properties on concrete renders *)

Lemma trapped_keys_witness :
  CachedParams empty_state !! params_id shell_params = None ∧
  own_slot (createPrerenderParams promise_members shell_params shell_store
              (PrerenderStorePPR 0) empty_state).2 0 "lang"
  = Some (AccessorSlot 0 "lang" shell_store (PrerenderStorePPR 0) true true).
Proof.
  assert (H0 : CachedParams empty_state !! params_id shell_params = None) by reflexivity.
  assert (H1 : "lang" ∈ Object_keys shell_params) by (vm_compute; set_solver).
  assert (H2 : "lang" ∉ promise_members) by (vm_compute; set_solver).
  assert (H3 : "lang" ∈ ({[ "lang" ]} : gset string)) by set_solver.
  split; [exact H0|].
  destruct (trapped_keys promise_members shell_params shell_store
              (PrerenderStorePPR 0) empty_state "lang" H0) as [Hiff Hform].
  apply Hform, Hiff. split; [exact H1|]. split; [exact H2|]. split; [|discriminate].
  exists {[ "lang" ]}. split; [reflexivity|exact H3].
Defined.

Lemma hanging_path_witness :
  fallbackRouteParams shell_store = Some {[ "lang" ]} ∧
  "lang" ∈ Object_keys shell_params ∧
  "lang" ∈ ({[ "lang" ]} : gset string) ∧
  CachedParams empty_state !! params_id shell_params = None ∧
  (let σ' := stored shell_params {| settlement := Hanging 0 "`params`"; own := ∅;
                                    proto := PromisePrototype |} empty_state in
   createPrerenderParams promise_members shell_params shell_store
     (PrerenderStoreModern 0) empty_state = (Normal 0, σ') ∧
   read describe_access 0 "locale" σ' = (Normal (Inherited PromisePrototype), σ')).
Proof.
  assert (H0 : fallbackRouteParams shell_store = Some {[ "lang" ]}) by reflexivity.
  assert (H1 : "lang" ∈ Object_keys shell_params) by (vm_compute; set_solver).
  assert (H2 : "lang" ∈ ({[ "lang" ]} : gset string)) by set_solver.
  assert (H3 : CachedParams empty_state !! params_id shell_params = None) by reflexivity.
  split; [exact H0|]. split; [exact H1|]. split; [exact H2|]. split; [exact H3|].
  destruct (hanging_path promise_members describe_access shell_params shell_store
              {[ "lang" ]} 0 empty_state "lang" H0 H1 H2 H3) as (Hc & _ & Hr).
  split; [exact Hc|exact (Hr "locale")].
Defined.

Lemma erroring_wrapper_fulfilled_witness :
  CachedParams empty_state !! params_id shell_params = None ∧
  ∃ σ' o,
    makeErroringRootParams promise_members shell_params {[ "lang" ]} shell_store
      (PrerenderStoreLegacy) empty_state = (Normal 0, σ') ∧
    heap σ' !! 0 = Some o ∧
    settlement o = Fulfilled shell_params ∧
    params_get shell_params "lang" = VString "[lang]".
Proof.
  assert (H0 : CachedParams empty_state !! params_id shell_params = None) by reflexivity.
  split; [exact H0|].
  destruct (erroring_wrapper_fulfilled promise_members shell_params {[ "lang" ]}
              shell_store PrerenderStoreLegacy empty_state H0)
    as (σ' & o & Hb & Ho & Hobs & _).
  exists σ', o. split; [exact Hb|]. split; [exact Ho|].
  split; [exact Hobs|reflexivity].
Defined.

Lemma no_keys_fully_known_witness :
  Object_keys no_params = [] ∧
  CachedParams empty_state !! params_id no_params = None ∧
  createPrerenderParams promise_members no_params landing_store
    (PrerenderStoreModern 0) empty_state
  = (Normal 0,
     stored no_params {| settlement := Fulfilled no_params; own := ∅;
                         proto := PromisePrototype |} empty_state).
Proof.
  assert (H0 : Object_keys no_params = []) by reflexivity.
  assert (H1 : CachedParams empty_state !! params_id no_params = None) by reflexivity.
  split; [exact H0|]. split; [exact H1|].
  exact (no_keys_fully_known promise_members no_params landing_store
           (PrerenderStoreModern 0) empty_state H0 H1).
Defined.

Lemma cache_keyed_by_identity_witness :
  let σ := (makeUntrackedRootParams promise_members en_us empty_state).2 in
  heap_ok σ ∧
  params_id en_us ≠ params_id en_us_again ∧
  params_entries en_us = params_entries en_us_again ∧
  CachedParams σ !! params_id en_us = Some 0 ∧
  CachedParams σ !! params_id en_us_again = None ∧
  ∃ w2 σ',
    makeUntrackedRootParams promise_members en_us_again σ = (Normal w2, σ') ∧
    w2 ≠ 0 ∧
    CachedParams σ' !! params_id en_us = Some 0 ∧
    CachedParams σ' !! params_id en_us_again = Some w2.
Proof.
  intros σ.
  assert (H0 : heap_ok σ).
  { apply (preserves_run_builder promise_members ViaUntracked en_us empty_state).
    apply heap_ok_empty. }
  assert (H1 : params_id en_us ≠ params_id en_us_again) by discriminate.
  assert (H2 : CachedParams σ !! params_id en_us = Some 0) by reflexivity.
  assert (H3 : CachedParams σ !! params_id en_us_again = None) by reflexivity.
  split; [exact H0|]. split; [exact H1|]. split; [reflexivity|].
  split; [exact H2|]. split; [exact H3|].
  destruct (cache_keyed_by_identity promise_members ViaUntracked en_us en_us_again
              σ 0 H0 H1 H2 H3) as (w2 & σ' & Hb & Hne & Hc1 & Hc2 & _).
  exists w2, σ'. split; [exact Hb|]. split; [exact Hne|]. split; [exact Hc1|exact Hc2].
Defined.

Lemma resolver_cache_footprint_witness :
  let wus := Some (UnitPrerender (PrerenderStoreModern 0)) in
  let σ' := (unstable_rootParams promise_members (Some shell_store) wus empty_state).2 in
  CachedParams σ' !! 0 ≠ CachedParams empty_state !! 0 ∧
  ∃ ws sig,
    Some shell_store = Some ws ∧ wus = Some (UnitPrerender (PrerenderStoreModern sig)) ∧
    0 = params_id (rootParams ws) ∧
    CachedParams empty_state !! 0 = None ∧ is_Some (CachedParams σ' !! 0).
Proof.
  intros wus σ'.
  assert (H0 : CachedParams σ' !! 0 ≠ CachedParams empty_state !! 0)
    by (vm_compute; discriminate).
  split; [exact H0|].
  exact (resolver_cache_footprint promise_members (Some shell_store) wus empty_state 0 H0).
Defined.

Lemma settlement_stable_witness :
  let pre := [CallBuilder (ViaPrerender shell_store (PrerenderStoreModern 0)) shell_params] in
  let cs := [CallWrite 0 "lang" (VString "fr");
             CallResolver (Some shell_store) (Some (UnitPrerender (PrerenderStoreModern 0)));
             CallRead 0 "lang"] in
  let σ := run_calls promise_members describe_access pre empty_state in
  heap σ !! 0
  = Some {| settlement := Hanging 0 "`params`"; own := ∅; proto := PromisePrototype |} ∧
  ∃ o', heap (run_calls promise_members describe_access cs σ) !! 0 = Some o' ∧
        settlement o' = Hanging 0 "`params`".
Proof.
  intros pre cs σ.
  assert (H0 : heap σ !! 0
               = Some {| settlement := Hanging 0 "`params`"; own := ∅;
                         proto := PromisePrototype |})
    by reflexivity.
  split; [exact H0|].
  exact (settlement_stable promise_members describe_access pre cs 0 _ H0).
Defined.

Lemma keys_independent_witness :
  let b := ViaErroring {[ "lang"; "locale" ]} shell_store (PrerenderStorePPR 0) in
  let σ1 := (run_builder promise_members b shell_params empty_state).2 in
  CachedParams empty_state !! params_id shell_params = None ∧
  "locale" ≠ "lang" ∧
  own_slot (run_accesses describe_access 0 "lang" [ARead; AWrite (VString "fr"); ARead] σ1)
    0 "locale"
  = own_slot σ1 0 "locale".
Proof.
  intros b σ1.
  assert (H0 : CachedParams empty_state !! params_id shell_params = None) by reflexivity.
  assert (H1 : "locale" ≠ "lang") by discriminate.
  split; [exact H0|]. split; [exact H1|].
  exact (keys_independent promise_members describe_access b shell_params empty_state
           "lang" "locale" [ARead; AWrite (VString "fr"); ARead] H0 H1).
Defined.

Lemma write_survives_resolution_witness :
  let σ1 := (makeErroringRootParams promise_members shell_params {[ "lang" ]}
               shell_store (PrerenderStorePPR 0) empty_state).2 in
  let σ2 := (write 0 "lang" (VString "fr") σ1).2 in
  CachedParams empty_state !! params_id shell_params = None ∧
  "lang" ∈ Object_keys shell_params ∧
  "lang" ∈ ({[ "lang" ]} : gset string) ∧
  ("lang" ∉ promise_members) ∧
  createPrerenderParams promise_members shell_params shell_store
    (PrerenderStorePPR 0) σ2 = (Normal 0, σ2) ∧
  own_slot σ2 0 "lang" = Some (DataSlot (VString "fr") true true true).
Proof.
  intros σ1 σ2.
  assert (H0 : CachedParams empty_state !! params_id shell_params = None) by reflexivity.
  assert (H1 : "lang" ∈ Object_keys shell_params) by (vm_compute; set_solver).
  assert (H2 : "lang" ∈ ({[ "lang" ]} : gset string)) by set_solver.
  assert (H3 : "lang" ∉ promise_members) by (vm_compute; set_solver).
  split; [exact H0|]. split; [exact H1|]. split; [exact H2|]. split; [exact H3|].
  exact (write_survives_resolution promise_members shell_params {[ "lang" ]}
           shell_store (PrerenderStorePPR 0) empty_state "lang" (VString "fr")
           (ViaPrerender shell_store (PrerenderStorePPR 0)) H0 H1 H2 H3).
Defined.

Lemma erroring_without_traps_is_untracked_witness :
  (∀ k, k ∈ Object_keys en_us → k ∈ ({[ "id" ]} : gset string) → k ∈ promise_members) ∧
  makeErroringRootParams promise_members en_us {[ "id" ]} en_us_store
    (PrerenderStorePPR 0) empty_state
  = makeUntrackedRootParams promise_members en_us empty_state.
Proof.
  assert (H0 : ∀ k, k ∈ Object_keys en_us → k ∈ ({[ "id" ]} : gset string) →
                    k ∈ promise_members).
  { intros k Hin Hk. apply elem_of_singleton in Hk. subst k. exfalso.
    vm_compute in Hin. apply elem_of_cons in Hin as [Hin|Hin]; [discriminate Hin|].
    apply elem_of_cons in Hin as [Hin|Hin]; [discriminate Hin|].
    by apply not_elem_of_nil in Hin. }
  split; [exact H0|].
  exact (erroring_without_traps_is_untracked promise_members en_us {[ "id" ]}
           en_us_store (PrerenderStorePPR 0) empty_state H0).
Defined.

Lemma cache_entries_sound_witness :
  let cs := [CallResolver (Some shell_store) (Some (UnitPrerender (PrerenderStoreModern 0)));
             CallBuilder ViaUntracked en_us_again] in
  let σ := run_calls promise_members describe_access cs empty_state in
  CachedParams σ !! 1 = Some 2 ∧
  ∃ o, heap σ !! 2 = Some o ∧
       (∀ P, settlement o = Fulfilled P → params_id P = 1) ∧
       (∀ e, settlement o ≠ Rejected e).
Proof.
  intros cs σ.
  assert (H0 : CachedParams σ !! 1 = Some 2) by reflexivity.
  split; [exact H0|].
  exact (cache_entries_sound promise_members describe_access cs 1 2 H0).
Defined.
